(** * An open-addressing hash map with tombstones (src/src/lib.rs)

    Shallow embedding of [HashMap<K, V>]: one slot vector [table] with linear
    probing, a live-item counter [items] and a tombstone counter [tombs].
    The key type only contributes its equality (Rust [Eq]) and its hash
    ([DefaultHasher] output, a [u64], taken here as a [nat]).  Faults of the
    Rust code (the "Infinite loop!" panic, an out-of-range index, a modulus by
    zero and a loop that never ends) are the failure cases of a small result
    monad [Res]. *)

From Stdlib Require Import Lia PeanoNat.
From stdpp Require Import base list.

(** ** The result monad: a value, or a fault of the Rust code. *)

Inductive Fault :=
  | InfiniteLoop       (* panic!("Infinite loop!") *)
  | IndexOutOfBounds   (* table[idx] with idx >= table.len() *)
  | DivisionByZero     (* hash % 0 *)
  | NonTermination.    (* a while loop that never exits *)

Inductive Res (A : Type) : Type :=
  | Ret (a : A)
  | Fail (f : Fault).
Arguments Ret {A} a.
Arguments Fail {A} f.

Global Instance Res_ret : MRet Res := @Ret.
Global Instance Res_bind : MBind Res :=
  fun A B (f : A -> Res B) (m : Res A) =>
    match m with Ret a => f a | Fail e => Fail e end.

(** [hash % n as u64] *)
Definition umod (h n : nat) : Res nat :=
  if n =? 0 then Fail DivisionByZero else Ret (h mod n).

Definition INITIAL_SIZE : nat := 1.

(** The identity hash, used for the concrete runs at the end. *)
Definition idhash (n : nat) : nat := n.

Section HashMapModel.

Context {K V : Type} `{EqDecision K}.
(** [DefaultHasher::new(); key.hash(&mut hasher); hasher.finish()] *)
Variable hash : K -> nat.

Inductive Entry : Type :=
  | Empty
  | Del
  | Pair (key : K) (val : V).

Record HashMap : Type := mkHashMap {
  table : list Entry;
  items : nat;
  tombs : nat
}.

Definition new : HashMap := mkHashMap [] 0 0.

Definition prehash (key : K) : nat := hash key.

(** The inner loop of [resize]:
    [while let Entry::Pair {..} = new_table[idx] { idx = (idx + 1) % new_size }].
    After [length nt] steps every slot has been seen; if all of them hold a
    [Pair] the Rust loop runs forever. *)
Fixpoint place (fuel : nat) (nt : list Entry) (idx : nat) : Res nat :=
  match fuel with
  | O => Fail NonTermination
  | S fuel' =>
      match nt !! idx with
      | None => Fail IndexOutOfBounds
      | Some (Pair _ _) => place fuel' nt ((idx + 1) mod length nt)
      | Some _ => Ret idx
      end
  end.

(** [for entry in self.table.drain(..) { if let Entry::Pair {..} = entry { ... } }] *)
Fixpoint rehash_into (new_size : nat) (old nt : list Entry) : Res (list Entry) :=
  match old with
  | [] => Ret nt
  | Pair k v :: rest =>
      i0 ← umod (prehash k) new_size;
      idx ← place (length nt) nt i0;
      rehash_into new_size rest (<[idx := Pair k v]> nt)
  | _ :: rest => rehash_into new_size rest nt
  end.

Definition resize (s : HashMap) (rehash_only : bool) : Res HashMap :=
  let new_size :=
    if rehash_only then length (table s)
    else match length (table s) with 0 => INITIAL_SIZE | n => 2 * n end in
  nt ← rehash_into new_size (table s) (repeat Empty new_size);
  Ret (mkHashMap nt (items s) 0).

Definition len (s : HashMap) : nat := items s.
Definition is_empty (s : HashMap) : bool := items s =? 0.

(** Outcome of the probe loop shared by [insert], [get] and [remove]. *)
Inductive Probe : Type :=
  | Hit (idx : nat) (k : K) (v : V)   (* a Pair whose key equals the query *)
  | Miss (idx : nat).                 (* the first Empty slot *)

(** [while !matches!(self.table[idx], Entry::Empty) { ... }] with the
    counter [cnt] and its fence.  The fence fires at [cnt = len + 1], so the
    fuel [len + 2] given by the callers never runs out first. *)
Fixpoint probe (fuel : nat) (t : list Entry) (key : K) (idx cnt : nat)
    : Res Probe :=
  match fuel with
  | O => Fail InfiniteLoop
  | S fuel' =>
      match t !! idx with
      | None => Fail IndexOutOfBounds
      | Some Empty => Ret (Miss idx)
      | Some e =>
          let next :=
            let idx' := (idx + 1) mod length t in
            if length t <? cnt then Fail InfiniteLoop
            else probe fuel' t key idx' (S cnt) in
          match e with
          | Pair k v => if decide (key = k) then Ret (Hit idx k v) else next
          | _ => next
          end
      end
  end.

(** [self.table.is_empty() || self.items >= 3 * self.table.len() / 4] *)
Definition needs_growth (s : HashMap) : bool :=
  (length (table s) =? 0) || (3 * length (table s) / 4 <=? items s).

(** [self.items + self.tombs > 3 * self.table.len() / 4] *)
Definition contaminated (s : HashMap) : bool :=
  3 * length (table s) / 4 <? items s + tombs s.

Definition insert (s : HashMap) (key : K) (value : V)
    : Res (HashMap * option V) :=
  s1 ← (if needs_growth s then resize s false else Ret s);
  idx ← umod (prehash key) (length (table s1));
  p ← probe (2 + length (table s1)) (table s1) key idx 0;
  match p with
  | Hit i ekey old =>
      Ret (mkHashMap (<[i := Pair ekey value]> (table s1)) (items s1) (tombs s1),
           Some old)
  | Miss i =>
      Ret (mkHashMap (<[i := Pair key value]> (table s1)) (S (items s1)) (tombs s1),
           None)
  end.

Definition get (s : HashMap) (key : K) : Res (HashMap * option V) :=
  if length (table s) =? 0 then Ret (s, None) else
  s1 ← (if contaminated s then resize s true else Ret s);
  idx ← umod (prehash key) (length (table s1));
  p ← probe (2 + length (table s1)) (table s1) key idx 0;
  match p with
  | Hit _ _ v => Ret (s1, Some v)
  | Miss _ => Ret (s1, None)
  end.

Definition contains_key (s : HashMap) (key : K) : Res (HashMap * bool) :=
  r ← get s key;
  Ret (r.1, match r.2 with Some _ => true | None => false end).

Definition remove (s : HashMap) (key : K) : Res (HashMap * option V) :=
  if length (table s) =? 0 then Ret (s, None) else
  s1 ← (if contaminated s then resize s true else Ret s);
  idx ← umod (prehash key) (length (table s1));
  p ← probe (2 + length (table s1)) (table s1) key idx 0;
  match p with
  | Hit i _ v =>
      Ret (mkHashMap (<[i := Del]> (table s1)) (items s1 - 1) (S (tombs s1)),
           Some v)
  | Miss _ => Ret (s1, None)
  end.

(** Client operations and runs of them. *)
Inductive Op : Type :=
  | OpInsert (k : K) (v : V)
  | OpGet (k : K)
  | OpContains (k : K)
  | OpRemove (k : K).

Definition step (s : HashMap) (op : Op) : Res HashMap :=
  match op with
  | OpInsert k v => r ← insert s k v; Ret r.1
  | OpGet k => r ← get s k; Ret r.1
  | OpContains k => r ← contains_key s k; Ret r.1
  | OpRemove k => r ← remove s k; Ret r.1
  end.

Fixpoint run (s : HashMap) (ops : list Op) : Res HashMap :=
  match ops with
  | [] => Ret s
  | op :: rest => s' ← step s op; run s' rest
  end.

Inductive reachable : HashMap -> Prop :=
  | reach_new : reachable new
  | reach_step s op s' : reachable s -> step s op = Ret s' -> reachable s'.

(** ** Views of the slot vector used by the specification *)

Definition entry_pairs (e : Entry) : list (K * V) :=
  match e with Pair k v => [(k, v)] | _ => [] end.

(** The live pairs of a table, in slot order. *)
Fixpoint pairs (t : list Entry) : list (K * V) :=
  match t with [] => [] | e :: t' => entry_pairs e ++ pairs t' end.

Definition keys (t : list Entry) : list K := map fst (pairs t).

Fixpoint count_pairs (t : list Entry) : nat :=
  match t with
  | [] => 0
  | Pair _ _ :: t' => S (count_pairs t')
  | _ :: t' => count_pairs t'
  end.

Fixpoint count_del (t : list Entry) : nat :=
  match t with
  | [] => 0
  | Del :: t' => S (count_del t')
  | _ :: t' => count_del t'
  end.

Fixpoint count_empty (t : list Entry) : nat :=
  match t with
  | [] => 0
  | Empty :: t' => S (count_empty t')
  | _ :: t' => count_empty t'
  end.

(** The probe sequence of [k] visits [(hash k + j) mod length t],
    [j = 0, 1, ...]; a pair at slot [i] is reachable when [i] is on that
    sequence and no slot before it is [Empty]. *)
Definition reach (t : list Entry) (k : K) (i : nat) : Prop :=
  exists d, d < length t /\ i = (hash k + d) mod length t /\
    forall j, j < d -> t !! ((hash k + j) mod length t) <> Some Empty.

Definition table_ok (t : list Entry) : Prop :=
  NoDup (keys t) /\
  forall i k v, t !! i = Some (Pair k v) -> reach t k i.

(** The representation invariant of [HashMap]. *)
Record wf (s : HashMap) : Prop := {
  wf_items : items s = count_pairs (table s);
  wf_tombs : tombs s = count_del (table s);
  wf_table : table_ok (table s)
}.

(** What one probe step does with the slot at [i]: stop with a result, or
    go on ([None]). *)
Definition classify (t : list Entry) (key : K) (i : nat) : option Probe :=
  match t !! i with
  | Some Empty => Some (Miss i)
  | Some (Pair k v) => if decide (key = k) then Some (Hit i k v) else None
  | _ => None
  end.

Definition is_pair (o : option Entry) : bool :=
  match o with Some (Pair _ _) => true | _ => false end.

(** The thresholds as the specification words them, with
    [ceil(3/4 * capacity)] where the code has [3 * capacity / 4]. *)
Definition ceil_three_quarters (n : nat) : nat := (3 * n + 3) / 4.

Definition needs_growth_spec (s : HashMap) : bool :=
  (length (table s) =? 0) || (ceil_three_quarters (length (table s)) <=? items s).

Definition contaminated_spec (s : HashMap) : bool :=
  ceil_three_quarters (length (table s)) <? items s + tombs s.

(** An operation that writes or deletes key [k]. *)
Definition touches (k : K) (op : Op) : Prop :=
  match op with
  | OpInsert k' _ | OpRemove k' => k' = k
  | _ => False
  end.

Definition inserts (k : K) (op : Op) : Prop :=
  match op with OpInsert k' _ => k' = k | _ => False end.

(** [n] growth resizes in a row. *)
Fixpoint grow_n (n : nat) (s : HashMap) : Res HashMap :=
  match n with
  | O => Ret s
  | S n' => s' ← resize s false; grow_n n' s'
  end.

(** ** Lemmas on slot vectors *)

Lemma pairs_app l1 l2 : pairs (l1 ++ l2) = pairs l1 ++ pairs l2.
Proof. induction l1 as [|e l1 IH]; simpl; [done|]. by rewrite IH, app_assoc. Qed.

Lemma count_pairs_app l1 l2 : count_pairs (l1 ++ l2) = count_pairs l1 + count_pairs l2.
Proof. induction l1 as [|[] l1 IH]; simpl; lia. Qed.

Lemma count_del_app l1 l2 : count_del (l1 ++ l2) = count_del l1 + count_del l2.
Proof. induction l1 as [|[] l1 IH]; simpl; lia. Qed.

Lemma length_pairs t : length (pairs t) = count_pairs t.
Proof. induction t as [|[] t IH]; simpl; lia. Qed.

Lemma length_counts t : length t = count_pairs t + count_del t + count_empty t.
Proof. induction t as [|[] t IH]; simpl; lia. Qed.

Lemma empty_exists t :
  count_pairs t + count_del t < length t -> exists i, t !! i = Some Empty.
Proof.
  induction t as [|e t IH]; simpl; [lia|]. intros Hlt.
  destruct e; simpl in Hlt.
  - by exists 0.
  - destruct IH as [i Hi]; [lia|]. by exists (S i).
  - destruct IH as [i Hi]; [lia|]. by exists (S i).
Qed.

Lemma split_at t i (e e' : Entry) :
  t !! i = Some e ->
  exists l1 l2, t = l1 ++ e :: l2 /\ <[i := e']> t = l1 ++ e' :: l2.
Proof.
  intros H. exists (take i t), (drop (S i) t).
  pose proof (lookup_lt_Some _ _ _ H).
  split; [symmetry; by apply take_drop_middle|]. by apply insert_take_drop.
Qed.

Lemma in_pairs_lookup t k v :
  In (k, v) (pairs t) -> exists i, t !! i = Some (Pair k v).
Proof.
  induction t as [|e t IH]; simpl; [done|]. intros Hin.
  apply in_app_or in Hin as [Hin|Hin].
  - destruct e; simpl in Hin; try done.
    destruct Hin as [[= -> ->]|[]]. by exists 0.
  - destruct (IH Hin) as [i Hi]. by exists (S i).
Qed.

Lemma lookup_in_pairs t i k v :
  t !! i = Some (Pair k v) -> In (k, v) (pairs t).
Proof.
  intros H. destruct (split_at t i _ Empty H) as (l1 & l2 & -> & _).
  rewrite pairs_app. simpl. apply in_or_app. right. by left.
Qed.

Lemma keys_unique t i j k v w :
  NoDup (keys t) -> t !! i = Some (Pair k v) -> t !! j = Some (Pair k w) -> i = j.
Proof.
  unfold keys. revert i j. induction t as [|e t IH]; intros i j Hnd Hi Hj; [done|].
  destruct i as [|i], j as [|j]; simpl in *; try done.
  - injection Hi as ->. simpl in Hnd. inversion Hnd as [|? ? Hnotin].
    exfalso. apply Hnotin. apply lookup_in_pairs in Hj.
    apply list_elem_of_In, in_map_iff. by exists (k, w).
  - injection Hj as ->. simpl in Hnd. inversion Hnd as [|? ? Hnotin].
    exfalso. apply Hnotin. apply lookup_in_pairs in Hi.
    apply list_elem_of_In, in_map_iff. by exists (k, v).
  - f_equal. apply IH; try done. rewrite map_app in Hnd.
    by apply NoDup_app in Hnd as (_ & _ & ?).
Qed.

(** ** Arithmetic on probe positions *)

Lemma mod_shift h d n : 0 < n -> ((h + d) mod n + 1) mod n = (h + S d) mod n.
Proof.
  intros Hn. rewrite Nat.Div0.add_mod_idemp_l by lia. f_equal. lia.
Qed.

Lemma mod_distinct h j d n : j < d -> d < n -> (h + j) mod n <> (h + d) mod n.
Proof.
  intros Hjd Hdn Heq.
  pose proof (Nat.div_mod_eq (h + j) n) as E1.
  pose proof (Nat.div_mod_eq (h + d) n) as E2.
  rewrite Heq in E1.
  assert (n * ((h + d) / n) = n * ((h + j) / n) + (d - j)) as E by lia.
  destruct (Nat.le_gt_cases ((h + d) / n) ((h + j) / n)) as [Hle|Hgt].
  - assert (n * ((h + d) / n) <= n * ((h + j) / n)) by (apply Nat.mul_le_mono_l; lia). lia.
  - assert (n * S ((h + j) / n) <= n * ((h + d) / n)) by (apply Nat.mul_le_mono_l; lia). lia.
Qed.

Lemma mod_wrap h d n : 0 < n -> (h + d) mod n = (h + d mod n) mod n.
Proof. intros Hn. by rewrite Nat.Div0.add_mod_idemp_r by lia. Qed.

Lemma mod_offset h e n : 0 < n -> e < n -> exists d, d < n /\ (h + d) mod n = e.
Proof.
  intros Hn He. set (r := h mod n).
  assert (r < n) by (apply Nat.mod_upper_bound; lia).
  destruct (le_lt_dec r e) as [Hle|Hlt].
  - exists (e - r). split; [lia|].
    rewrite <- Nat.Div0.add_mod_idemp_l by lia. fold r.
    replace (r + (e - r)) with e by lia. by apply Nat.mod_small.
  - exists (n + e - r). split; [lia|].
    rewrite <- Nat.Div0.add_mod_idemp_l by lia. fold r.
    replace (r + (n + e - r)) with (e + 1 * n) by lia.
    rewrite Nat.Div0.mod_add by lia. by apply Nat.mod_small.
Qed.

(** [3 * n / 4] in linear terms. *)
Lemma three_quarters n : 4 * (3 * n / 4) <= 3 * n /\ 3 * n < 4 * (3 * n / 4) + 4.
Proof.
  pose proof (Nat.div_mod_eq (3 * n) 4). pose proof (Nat.mod_upper_bound (3 * n) 4). lia.
Qed.


Lemma first_index_aux (P : nat -> Prop) `{forall j, Decision (P j)} m :
  (forall j, j < m -> ~ P j) \/ (exists D, D < m /\ P D /\ forall j, j < D -> ~ P j).
Proof.
  induction m as [|m [Hall|(D & HD & PD & Hbefore)]].
  - left. intros; lia.
  - destruct (decide (P m)) as [Pm|nPm].
    + right. exists m. split; [lia|]. split; [done|]. exact Hall.
    + left. intros j Hj. destruct (decide (j = m)) as [->|Hne]; [done|]. apply Hall. lia.
  - right. exists D. split; [lia|]. by split.
Qed.

Lemma first_index (P : nat -> Prop) `{forall j, Decision (P j)} m :
  P m -> exists D, D <= m /\ P D /\ forall j, j < D -> ~ P j.
Proof.
  intros Pm. destruct (first_index_aux P m) as [Hall|(D & HD & PD & Hbefore)].
  - exists m. split; [lia|]. by split.
  - exists D. split; [lia|]. by split.
Qed.

(** ** The probe loop *)

Lemma probe_S f t key i cnt :
  i < length t ->
  probe (S f) t key i cnt =
  match classify t key i with
  | Some p => Ret p
  | None =>
      if length t <? cnt then Fail InfiniteLoop
      else probe f t key ((i + 1) mod length t) (S cnt)
  end.
Proof.
  intros Hi. destruct (lookup_lt_is_Some_2 t i Hi) as [e He].
  cbn [probe]. unfold classify. rewrite He. destruct e; try reflexivity. by case_decide.
Qed.

Lemma classify_hit t key i i' k v :
  classify t key i = Some (Hit i' k v) -> i' = i /\ k = key /\ t !! i = Some (Pair k v).
Proof.
  unfold classify. destruct (t !! i) as [[| |k' v']|]; try discriminate.
  case_decide; [|discriminate]. intros [= -> -> ->]. auto.
Qed.

Lemma classify_miss t key i i' :
  classify t key i = Some (Miss i') -> i' = i /\ t !! i = Some Empty.
Proof.
  unfold classify. destruct (t !! i) as [[| |k' v']|]; try discriminate.
  - intros [= ->]. auto.
  - case_decide; discriminate.
Qed.

Lemma classify_none t key i :
  classify t key i = None -> t !! i <> Some Empty /\ forall v, t !! i <> Some (Pair key v).
Proof.
  unfold classify. destruct (t !! i) as [[| |k' v']|]; try discriminate; intros Hc.
  - split; congruence.
  - case_decide; [discriminate|]. split; [congruence|]. intros v [= <- _]. done.
  - split; congruence.
Qed.

Lemma probe_fwd t key h D p :
  0 < length t -> D <= length t ->
  (forall j, j < D -> classify t key ((h + j) mod length t) = None) ->
  classify t key ((h + D) mod length t) = Some p ->
  forall f d, d <= D -> D - d < f -> probe f t key ((h + d) mod length t) d = Ret p.
Proof.
  intros Hn HD Hbefore Hat f. induction f as [|f IH]; intros d Hd Hf; [lia|].
  rewrite probe_S by (apply Nat.mod_upper_bound; lia).
  destruct (decide (d = D)) as [->|Hne]; [by rewrite Hat|].
  rewrite Hbefore by lia.
  destruct (length t <? d) eqn:E; [apply Nat.ltb_lt in E; lia|].
  rewrite mod_shift by lia. apply IH; lia.
Qed.

Lemma probe_inv t key h f d p :
  0 < length t ->
  probe f t key ((h + d) mod length t) d = Ret p ->
  exists D, d <= D /\
    (forall j, d <= j < D -> classify t key ((h + j) mod length t) = None) /\
    classify t key ((h + D) mod length t) = Some p.
Proof.
  intros Hn. revert d. induction f as [|f IH]; intros d Hp; [done|].
  rewrite probe_S in Hp by (apply Nat.mod_upper_bound; lia).
  destruct (classify t key ((h + d) mod length t)) eqn:Hc.
  - injection Hp as ->. exists d. split; [lia|]. split; [intros; lia|done].
  - destruct (length t <? d); [done|]. rewrite mod_shift in Hp by lia.
    destruct (IH _ Hp) as (D & HdD & Hbefore & Hat).
    exists D. split; [lia|]. split; [|done].
    intros j Hj. destruct (decide (j = d)) as [->|]; [done|]. apply Hbefore. lia.
Qed.

Lemma probe_start t key p :
  probe (2 + length t) t key (hash key mod length t) 0 = p <->
  probe (2 + length t) t key ((hash key + 0) mod length t) 0 = p.
Proof. by rewrite Nat.add_0_r. Qed.

Lemma keys_elem t key : key ∈ keys t -> exists i v, t !! i = Some (Pair key v).
Proof.
  unfold keys. intros Hin. apply list_elem_of_In, in_map_iff in Hin as ([k v] & <- & Hin).
  apply in_pairs_lookup in Hin as [i Hi]. by exists i, v.
Qed.

Lemma lookup_keys t i key v : t !! i = Some (Pair key v) -> key ∈ keys t.
Proof.
  intros Hi. apply lookup_in_pairs in Hi. unfold keys.
  apply list_elem_of_In, in_map_iff. by exists (key, v).
Qed.

(** A probe that returns found the key, or stopped at an [Empty] slot that
    is reachable for the key, and then the key is absent. *)
Lemma probe_result t key p :
  table_ok t -> 0 < length t ->
  probe (2 + length t) t key (hash key mod length t) 0 = Ret p ->
  match p with
  | Hit i k v => k = key /\ t !! i = Some (Pair key v)
  | Miss i => t !! i = Some Empty /\ (key ∉ keys t) /\ reach t key i
  end.
Proof.
  intros [Hnd Hreach] Hn Hp. apply probe_start in Hp.
  destruct (probe_inv t key (hash key) _ 0 p Hn Hp) as (D & _ & Hbefore & Hat).
  assert (HDn : D < length t).
  { destruct (decide (D < length t)); [done|]. exfalso.
    rewrite mod_wrap in Hat by lia. rewrite Hbefore in Hat; [done|].
    split; [lia|]. pose proof (Nat.mod_upper_bound D (length t)). lia. }
  destruct p as [i k v|i].
  - apply classify_hit in Hat as (-> & -> & Ht). auto.
  - apply classify_miss in Hat as (-> & Ht). split; [done|].
    assert (Hpath : forall j, j < D -> t !! ((hash key + j) mod length t) <> Some Empty).
    { intros j Hj. apply (classify_none t key). apply Hbefore. lia. }
    split; [|exists D; auto].
    intros Hin. apply keys_elem in Hin as (i' & w & Hi').
    destruct (Hreach _ _ _ Hi') as (d' & Hd' & -> & Hpath').
    destruct (Nat.lt_trichotomy d' D) as [Hlt|[->|Hgt]].
    + destruct (classify_none t key _ (Hbefore d' ltac:(lia))) as [_ Hk]. by apply (Hk w).
    + congruence.
    + by apply (Hpath' D Hgt).
Qed.

Lemma probe_present t key i v :
  table_ok t -> t !! i = Some (Pair key v) ->
  probe (2 + length t) t key (hash key mod length t) 0 = Ret (Hit i key v).
Proof.
  intros [Hnd Hreach] Hi. pose proof (lookup_lt_Some _ _ _ Hi) as Hin.
  destruct (Hreach _ _ _ Hi) as (d & Hd & Hid & Hpath).
  apply probe_start. apply (probe_fwd t key (hash key) d); try lia.
  - intros j Hj. unfold classify.
    destruct (t !! ((hash key + j) mod length t)) as [[| |k' w]|] eqn:Ej; try done.
    + by apply Hpath in Ej.
    + case_decide as Hk; [|done]. subst k'. exfalso.
      pose proof (keys_unique t _ _ _ _ _ Hnd Ej Hi) as Heq. rewrite Hid in Heq.
      by apply (mod_distinct (hash key) j d (length t)).
  - rewrite <- Hid. unfold classify. rewrite Hi. by case_decide.
Qed.

Lemma probe_absent t key :
  key ∉ keys t -> (exists e, t !! e = Some Empty) ->
  exists i, probe (2 + length t) t key (hash key mod length t) 0 = Ret (Miss i) /\
            t !! i = Some Empty.
Proof.
  intros Habs [e He]. pose proof (lookup_lt_Some _ _ _ He) as Hen.
  destruct (mod_offset (hash key) e (length t) ltac:(lia) Hen) as (m & Hm & Hme).
  set (P := fun j => is_Some (classify t key ((hash key + j) mod length t))).
  assert (Pm : P m) by (unfold P, classify; rewrite Hme, He; eauto).
  destruct (first_index P m Pm) as (D & HDm & [p Hp] & Hbefore).
  assert (Hnone : forall j, j < D -> classify t key ((hash key + j) mod length t) = None).
  { intros j Hj. destruct (classify t key ((hash key + j) mod length t)) eqn:E; [|done]. exfalso. apply (Hbefore j Hj). unfold P. rewrite E. by eexists. }
  destruct p as [i k v|i].
  - apply classify_hit in Hp as (_ & -> & Hp). exfalso. apply Habs. by eapply lookup_keys.
  - exists i. pose proof Hp as Hp'. apply classify_miss in Hp' as (-> & Hi). split; [|done].
    apply probe_start. apply (probe_fwd t key (hash key) D); try lia; done.
Qed.

(** ** The placement loop of [resize] *)

Lemma place_S f nt i :
  i < length nt ->
  place (S f) nt i =
  match nt !! i with
  | Some (Pair _ _) => place f nt ((i + 1) mod length nt)
  | _ => Ret i
  end.
Proof.
  intros Hi. destruct (lookup_lt_is_Some_2 nt i Hi) as [e He].
  cbn [place]. rewrite He. by destruct e.
Qed.

Lemma place_fwd nt h D :
  0 < length nt ->
  (forall j, j < D -> is_pair (nt !! ((h + j) mod length nt)) = true) ->
  is_pair (nt !! ((h + D) mod length nt)) = false ->
  forall f d, d <= D -> D - d < f ->
  place f nt ((h + d) mod length nt) = Ret ((h + D) mod length nt).
Proof.
  intros Hn Hbefore Hat f. induction f as [|f IH]; intros d Hd Hf; [lia|].
  rewrite place_S by (apply Nat.mod_upper_bound; lia).
  destruct (decide (d = D)) as [->|Hne].
  - destruct (nt !! _) as [[]|]; done.
  - specialize (Hbefore d ltac:(lia)).
    destruct (nt !! _) as [[]|]; try done.
    rewrite mod_shift by lia. apply IH; lia.
Qed.

(** ** Resizing *)

Lemma reach_mono t t' k i :
  length t' = length t ->
  (forall j, t' !! j = Some Empty -> t !! j = Some Empty) ->
  reach t k i -> reach t' k i.
Proof.
  intros Hl Hemp (d & Hd & -> & Hpath). exists d. rewrite Hl.
  split; [done|]. split; [done|]. intros j Hj He. by apply (Hpath j Hj), Hemp.
Qed.

Lemma insert_no_new_empty (t : list Entry) (i j : nat) (e : Entry) :
  e <> Empty -> <[i := e]> t !! j = Some Empty -> t !! j = Some Empty.
Proof.
  intros He. rewrite list_lookup_insert. case_decide; [congruence|done].
Qed.

Lemma lookup_insert_pair (t : list Entry) (i j : nat) (e : Entry) k v :
  <[i := e]> t !! j = Some (Pair k v) ->
  (i = j /\ e = Pair k v) \/ (i <> j /\ t !! j = Some (Pair k v)).
Proof.
  rewrite list_lookup_insert. case_decide as Hc.
  - intros [= <-]. left. split; [tauto|done].
  - intros Hj. right. split; [|done]. intros ->. apply Hc. split; [done|].
    by apply lookup_lt_Some in Hj.
Qed.

Lemma repeat_empty_props N :
  length (repeat Empty N) = N /\ count_del (repeat Empty N) = 0 /\
  count_pairs (repeat Empty N) = 0 /\ pairs (repeat Empty N) = [] /\
  forall i k v, repeat Empty N !! i <> Some (Pair k v).
Proof.
  induction N as [|N (IH1 & IH2 & IH3 & IH4 & IH5)]; simpl.
  - repeat split; intros; done.
  - repeat split; try lia; try done. intros [|i] k v; simpl; [done|]. apply IH5.
Qed.

Lemma rehash_into_spec N old nt :
  length nt = N -> count_del nt = 0 ->
  (forall i k v, nt !! i = Some (Pair k v) -> reach nt k i) ->
  count_pairs nt + count_pairs old <= N ->
  exists nt', rehash_into N old nt = Ret nt' /\ length nt' = N /\
    count_del nt' = 0 /\
    (forall i k v, nt' !! i = Some (Pair k v) -> reach nt' k i) /\
    pairs nt' ≡ₚ pairs nt ++ pairs old.
Proof.
  revert nt. induction old as [|e old IH]; intros nt Hlen Hdel Hreach Hcnt.
  - exists nt. simpl. rewrite app_nil_r. auto.
  - destruct e as [| |k v]; simpl in Hcnt |- *; [by apply IH|by apply IH|].
    assert (HN : 0 < N) by lia.
    unfold umod. destruct (N =? 0) eqn:E0; [apply Nat.eqb_eq in E0; lia|]. simpl.
    (* a free slot exists: the new table has no tombstones *)
    destruct (empty_exists nt) as [e0 He0]; [lia|].
    pose proof (lookup_lt_Some _ _ _ He0) as He0n.
    destruct (mod_offset (prehash k) e0 N HN ltac:(lia)) as (m & Hm & Hme).
    set (P := fun j => is_pair (nt !! ((prehash k + j) mod N)) = false).
    assert (Pm : P m) by (unfold P; rewrite Hme, He0; done).
    destruct (first_index P m Pm) as (D & HDm & PD & Hbefore).
    assert (Hplace : place (length nt) nt (prehash k mod N) = Ret ((prehash k + D) mod N)).
    { rewrite <- (Nat.add_0_r (prehash k)) at 1. subst N.
      apply place_fwd; try lia; [|done].
      intros j Hj. destruct (is_pair _) eqn:Ej; [done|]. exfalso. by apply (Hbefore j Hj). }
    rewrite Hplace. simpl.
    set (idx := (prehash k + D) mod N) in *.
    assert (Hidx : idx < N) by (apply Nat.mod_upper_bound; lia).
    assert (Hslot : nt !! idx = Some Empty).
    { destruct (lookup_lt_is_Some_2 nt idx ltac:(lia)) as [[| |k' v'] Hs]; [done| |];
        unfold P in PD; fold idx in PD; rewrite Hs in PD; try done.
      exfalso. destruct (split_at nt idx Del Del Hs) as (l1 & l2 & -> & _).
      rewrite count_del_app in Hdel. simpl in Hdel. lia. }
    destruct (split_at nt idx Empty (Pair k v) Hslot) as (l1 & l2 & Hnt & Hnt1).
    destruct (IH (<[idx := Pair k v]> nt)) as (nt' & Hrun & Hlen' & Hdel' & Hreach' & Hperm').
    + by rewrite length_insert.
    + rewrite Hnt1. rewrite Hnt in Hdel. rewrite count_del_app in *. simpl in *. lia.
    + intros i k' v' Hi.
      apply (reach_mono nt); [by rewrite length_insert|intros j; apply insert_no_new_empty; done|].
      apply lookup_insert_pair in Hi as [[<- [= <- <-]]|[_ Hi]]; [|by apply Hreach in Hi].
      exists D. rewrite Hlen. split; [lia|]. split; [done|].
      intros j Hj Hj'.
      apply (Hbefore j Hj). unfold P, prehash. rewrite Hj'. done.
    + rewrite Hnt1. rewrite Hnt in Hcnt. rewrite count_pairs_app in *. simpl in *. lia.
    + exists nt'. split; [done|]. split; [done|]. split; [done|]. split; [done|].
      rewrite Hperm', Hnt1, Hnt, !pairs_app. simpl. solve_Permutation.
Qed.

Lemma count_pairs_le t : count_pairs t <= length t.
Proof. pose proof (length_counts t). lia. Qed.

Lemma resize_spec s (rehash_only : bool) :
  exists s', resize s rehash_only = Ret s' /\
    length (table s') =
      (if rehash_only then length (table s) else Nat.max 1 (2 * length (table s))) /\
    items s' = items s /\ tombs s' = 0 /\ count_del (table s') = 0 /\
    (forall i k v, table s' !! i = Some (Pair k v) -> reach (table s') k i) /\
    pairs (table s') ≡ₚ pairs (table s).
Proof.
  unfold resize.
  set (N := if rehash_only then length (table s)
            else match length (table s) with 0 => INITIAL_SIZE | n => 2 * n end).
  assert (HN : N = if rehash_only then length (table s) else Nat.max 1 (2 * length (table s))).
  { subst N. destruct rehash_only; [done|]. unfold INITIAL_SIZE. destruct (length (table s)); lia. }
  destruct (repeat_empty_props N) as (H1 & H2 & H3 & H4 & H5).
  destruct (rehash_into_spec N (table s) (repeat Empty N)) as (nt' & Hrun & Hlen & Hdel & Hreach & Hperm).
  - done.
  - done.
  - intros i k v Hi. by apply H5 in Hi.
  - rewrite H3. pose proof (count_pairs_le (table s)).
    rewrite HN. destruct rehash_only; lia.
  - rewrite Hrun. simpl. eexists. split; [reflexivity|]. simpl.
    split; [by rewrite Hlen|]. split; [done|]. split; [done|]. split; [done|].
    split; [done|]. by rewrite Hperm, H4.
Qed.

(** ** Running the operations *)

Lemma bind_ret {A B} (a : A) (f : A -> Res B) : (Ret a ≫= f) = f a.
Proof. reflexivity. Qed.

Lemma bind_eq_ret {A B} (m : Res A) (f : A -> Res B) b :
  (m ≫= f) = Ret b -> exists a, m = Ret a /\ f a = Ret b.
Proof. destruct m as [a|e]; simpl; [eauto|discriminate]. Qed.

Lemma umod_pos h n : 0 < n -> umod h n = Ret (h mod n).
Proof. intros Hn. unfold umod. destruct (n =? 0) eqn:E; [apply Nat.eqb_eq in E; lia|done]. Qed.

Lemma umod_ret h n i : umod h n = Ret i -> 0 < n /\ i = h mod n.
Proof.
  unfold umod. destruct (n =? 0) eqn:E; [discriminate|]. apply Nat.eqb_neq in E.
  intros [= <-]. split; [lia|done].
Qed.

Lemma insert_inv s k v s' r :
  insert s k v = Ret (s', r) ->
  exists s1 p,
    (if needs_growth s then resize s false else Ret s) = Ret s1 /\
    0 < length (table s1) /\
    probe (2 + length (table s1)) (table s1) k (hash k mod length (table s1)) 0 = Ret p /\
    match p with
    | Hit i ekey old =>
        s' = mkHashMap (<[i := Pair ekey v]> (table s1)) (items s1) (tombs s1) /\ r = Some old
    | Miss i =>
        s' = mkHashMap (<[i := Pair k v]> (table s1)) (S (items s1)) (tombs s1) /\ r = None
    end.
Proof.
  unfold insert. intros H.
  apply bind_eq_ret in H as (s1 & Hs1 & H).
  apply bind_eq_ret in H as (i0 & Hi0 & H).
  apply umod_ret in Hi0 as [Hpos ->].
  apply bind_eq_ret in H as (p & Hp & H).
  exists s1, p. split; [done|]. split; [done|]. split; [done|].
  destruct p; injection H as <- <-; auto.
Qed.

Lemma get_inv s k s' r :
  get s k = Ret (s', r) ->
  (length (table s) = 0 /\ s' = s /\ r = None) \/
  (0 < length (table s) /\
   exists p,
    (if contaminated s then resize s true else Ret s) = Ret s' /\
    0 < length (table s') /\
    probe (2 + length (table s')) (table s') k (hash k mod length (table s')) 0 = Ret p /\
    r = match p with Hit _ _ w => Some w | Miss _ => None end).
Proof.
  unfold get. destruct (length (table s) =? 0) eqn:E0.
  - apply Nat.eqb_eq in E0. intros [= <- <-]. by left.
  - apply Nat.eqb_neq in E0. intros H. right. split; [lia|].
    apply bind_eq_ret in H as (s1 & Hs1 & H).
    apply bind_eq_ret in H as (i0 & Hi0 & H).
    apply umod_ret in Hi0 as [Hpos ->].
    apply bind_eq_ret in H as (p & Hp & H).
    exists p. destruct p; injection H as <- <-; auto.
Qed.

Lemma remove_inv s k s' r :
  remove s k = Ret (s', r) ->
  (length (table s) = 0 /\ s' = s /\ r = None) \/
  (0 < length (table s) /\
   exists s1 p,
    (if contaminated s then resize s true else Ret s) = Ret s1 /\
    0 < length (table s1) /\
    probe (2 + length (table s1)) (table s1) k (hash k mod length (table s1)) 0 = Ret p /\
    match p with
    | Hit i _ w =>
        s' = mkHashMap (<[i := Del]> (table s1)) (items s1 - 1) (S (tombs s1)) /\ r = Some w
    | Miss _ => s' = s1 /\ r = None
    end).
Proof.
  unfold remove. destruct (length (table s) =? 0) eqn:E0.
  - apply Nat.eqb_eq in E0. intros [= <- <-]. by left.
  - apply Nat.eqb_neq in E0. intros H. right. split; [lia|].
    apply bind_eq_ret in H as (s1 & Hs1 & H).
    apply bind_eq_ret in H as (i0 & Hi0 & H).
    apply umod_ret in Hi0 as [Hpos ->].
    apply bind_eq_ret in H as (p & Hp & H).
    exists s1, p. destruct p; injection H as <- <-; auto.
Qed.

(** ** The representation invariant under each step *)

Lemma keys_app l1 l2 : keys (l1 ++ l2) = keys l1 ++ keys l2.
Proof. unfold keys. by rewrite pairs_app, map_app. Qed.

Lemma keys_cons_pair k v l : keys (Pair k v :: l) = k :: keys l.
Proof. reflexivity. Qed.

Lemma keys_cons_other (e : Entry) l : (forall k v, e <> Pair k v) -> keys (e :: l) = keys l.
Proof. destruct e as [| |k v]; [done|done|]. intros H. by destruct (H k v). Qed.

Lemma keys_perm t t' : pairs t ≡ₚ pairs t' -> keys t ≡ₚ keys t'.
Proof. unfold keys. apply Permutation_map. Qed.

Lemma reach_after_update t i (e : Entry) :
  (forall i' k v, t !! i' = Some (Pair k v) -> reach t k i') ->
  e <> Empty ->
  (forall k v, e = Pair k v -> reach t k i) ->
  forall i' k v, <[i := e]> t !! i' = Some (Pair k v) -> reach (<[i := e]> t) k i'.
Proof.
  intros Hreach He Hnew i' k v Hi'.
  apply (reach_mono t); [by rewrite length_insert|intros j; by apply insert_no_new_empty|].
  apply lookup_insert_pair in Hi' as [[<- ->]|[_ Hi']]; [by eapply Hnew|by eapply Hreach].
Qed.

Lemma update_pair_ok t i k old v :
  table_ok t -> t !! i = Some (Pair k old) ->
  table_ok (<[i := Pair k v]> t) /\
  count_pairs (<[i := Pair k v]> t) = count_pairs t /\
  count_del (<[i := Pair k v]> t) = count_del t /\
  exists rest, pairs t ≡ₚ (k, old) :: rest /\ pairs (<[i := Pair k v]> t) ≡ₚ (k, v) :: rest.
Proof.
  intros [Hnd Hreach] Hi.
  pose proof (Hreach _ _ _ Hi) as Hri.
  destruct (split_at t i _ (Pair k v) Hi) as (l1 & l2 & Ht & Ht').
  split; [split|].
  - rewrite Ht'. rewrite Ht in Hnd. rewrite keys_app in *. done.
  - apply reach_after_update; [done|done|]. intros k' v' [= <- <-]. done.
  - rewrite Ht', Ht, count_pairs_app, count_pairs_app, count_del_app, count_del_app.
    split; [done|]. split; [done|].
    exists (pairs l1 ++ pairs l2). rewrite !pairs_app. simpl.
    split; symmetry; apply Permutation_middle.
Qed.

Lemma fill_empty_ok t i k v :
  table_ok t -> t !! i = Some Empty -> k ∉ keys t -> reach t k i ->
  table_ok (<[i := Pair k v]> t) /\
  count_pairs (<[i := Pair k v]> t) = S (count_pairs t) /\
  count_del (<[i := Pair k v]> t) = count_del t /\
  pairs (<[i := Pair k v]> t) ≡ₚ (k, v) :: pairs t.
Proof.
  intros [Hnd Hreach] Hi Hk Hri.
  destruct (split_at t i _ (Pair k v) Hi) as (l1 & l2 & Ht & Ht').
  split; [split|].
  - rewrite Ht'. rewrite Ht in Hnd, Hk. rewrite keys_app, keys_cons_pair.
    rewrite keys_app, keys_cons_other in Hk, Hnd by done.
    rewrite <- Permutation_middle. by apply NoDup_cons.
  - apply reach_after_update; [done|done|]. intros k' v' [= <- <-]. done.
  - rewrite Ht', Ht, count_pairs_app, count_pairs_app, count_del_app, count_del_app.
    simpl. split; [lia|]. split; [done|].
    rewrite !pairs_app. simpl. symmetry. apply Permutation_middle.
Qed.

Lemma tomb_ok t i k w :
  table_ok t -> t !! i = Some (Pair k w) ->
  table_ok (<[i := Del]> t) /\
  count_pairs t = S (count_pairs (<[i := Del]> t)) /\
  count_del (<[i := Del]> t) = S (count_del t) /\
  pairs t ≡ₚ (k, w) :: pairs (<[i := Del]> t).
Proof.
  intros [Hnd Hreach] Hi.
  destruct (split_at t i _ Del Hi) as (l1 & l2 & Ht & Ht').
  split; [split|].
  - rewrite Ht'. rewrite Ht in Hnd. rewrite keys_app, keys_cons_other by done.
    rewrite keys_app, keys_cons_pair in Hnd.
    apply NoDup_app in Hnd as (H1 & H2 & H3). apply NoDup_cons in H3 as [_ H3].
    apply NoDup_app. split; [done|]. split; [|done]. intros x Hx Hx2.
    apply (H2 x Hx). apply elem_of_cons. by right.
  - apply reach_after_update; [done|done|]. intros k' v' [=].
  - rewrite Ht', Ht, count_pairs_app, count_pairs_app, count_del_app, count_del_app.
    simpl. split; [lia|]. split; [lia|].
    rewrite !pairs_app. simpl. symmetry. apply Permutation_middle.
Qed.

Lemma resized_wf s (rehash_only : bool) :
  NoDup (keys (table s)) -> items s = count_pairs (table s) ->
  exists s', resize s rehash_only = Ret s' /\ wf s' /\
    length (table s') =
      (if rehash_only then length (table s) else Nat.max 1 (2 * length (table s))) /\
    items s' = items s /\ tombs s' = 0 /\ pairs (table s') ≡ₚ pairs (table s).
Proof.
  intros Hnd Hitems.
  destruct (resize_spec s rehash_only) as (s' & Hr & Hlen & Hit & Htb & Hdel & Hreach & Hperm).
  exists s'. split; [done|]. split; [|auto].
  split.
  - rewrite Hit, Hitems, <- !length_pairs. by rewrite Hperm.
  - by rewrite Htb, Hdel.
  - split; [|done]. by rewrite (keys_perm _ _ Hperm).
Qed.

Lemma pre_grow s :
  wf s ->
  exists s1, (if needs_growth s then resize s false else Ret s) = Ret s1 /\ wf s1 /\
    pairs (table s1) ≡ₚ pairs (table s) /\ items s1 = items s /\
    tombs s1 = (if needs_growth s then 0 else tombs s) /\
    length (table s1) =
      (if needs_growth s then Nat.max 1 (2 * length (table s)) else length (table s)).
Proof.
  intros Hwf. destruct (needs_growth s).
  - destruct Hwf as [Hit _ [Hnd _]].
    destruct (resized_wf s false Hnd Hit) as (s1 & ? & ? & ? & ? & ? & ?). exists s1. by split_and!.
  - exists s. by split_and!.
Qed.

Lemma pre_declutter s :
  wf s ->
  exists s1, (if contaminated s then resize s true else Ret s) = Ret s1 /\ wf s1 /\
    pairs (table s1) ≡ₚ pairs (table s) /\ items s1 = items s /\
    tombs s1 = (if contaminated s then 0 else tombs s) /\
    length (table s1) = length (table s).
Proof.
  intros Hwf. destruct (contaminated s).
  - destruct Hwf as [Hit _ [Hnd _]].
    destruct (resized_wf s true Hnd Hit) as (s1 & ? & ? & ? & ? & ? & ?). exists s1. by split_and!.
  - exists s. by split_and!.
Qed.

Lemma insert_wf s k v s' r :
  wf s -> insert s k v = Ret (s', r) ->
  wf s' /\
  length (table s') =
    (if needs_growth s then Nat.max 1 (2 * length (table s)) else length (table s)) /\
  tombs s' = (if needs_growth s then 0 else tombs s) /\
  match r with
  | Some old =>
      items s' = items s /\
      exists rest, pairs (table s) ≡ₚ (k, old) :: rest /\ pairs (table s') ≡ₚ (k, v) :: rest
  | None =>
      items s' = S (items s) /\ (k ∉ keys (table s)) /\
      pairs (table s') ≡ₚ (k, v) :: pairs (table s)
  end.
Proof.
  intros Hwf H. apply insert_inv in H as (s1 & p & Hs1 & Hpos & Hp & Hres).
  destruct (pre_grow s Hwf) as (s1' & Hs1' & Hwf1 & Hperm1 & Hit1 & Htb1 & Hlen1).
  rewrite Hs1 in Hs1'. injection Hs1' as <-.
  pose proof (probe_result (table s1) k p (wf_table _ Hwf1) Hpos Hp) as Hpr.
  destruct Hwf1 as [Hi1 Ht1 Hok1].
  destruct p as [i ekey old|i].
  - destruct Hpr as [-> Hi]. destruct Hres as [-> ->].
    destruct (update_pair_ok _ i k old v Hok1 Hi) as (Hok' & Hc & Hd & rest & Hr1 & Hr2).
    simpl. rewrite length_insert. split; [split; simpl; [lia|lia|done]|].
    split; [done|]. split; [done|]. split; [lia|]. exists rest. split; [by rewrite <- Hperm1|done].
  - destruct Hpr as (Hi & Hk & Hri). destruct Hres as [-> ->].
    destruct (fill_empty_ok _ i k v Hok1 Hi Hk Hri) as (Hok' & Hc & Hd & Hr).
    simpl. rewrite length_insert. split; [split; simpl; [lia|lia|done]|].
    split; [done|]. split; [done|]. split; [lia|]. split.
    + by rewrite <- (keys_perm _ _ Hperm1).
    + by rewrite Hr, Hperm1.
Qed.

Lemma keys_nil t : length t = 0 -> keys t = [].
Proof. destruct t; [done|discriminate]. Qed.

Lemma get_wf s k s' r :
  wf s -> get s k = Ret (s', r) ->
  wf s' /\ length (table s') = length (table s) /\ items s' = items s /\
  pairs (table s') ≡ₚ pairs (table s) /\
  match r with
  | Some w => In (k, w) (pairs (table s))
  | None => k ∉ keys (table s)
  end.
Proof.
  intros Hwf H. apply get_inv in H as [(H0 & -> & ->)|(Hpos & p & Hs1 & Hpos1 & Hp & ->)].
  - split_and!; try done. rewrite keys_nil by done. apply not_elem_of_nil.
  - destruct (pre_declutter s Hwf) as (s1 & Hs1' & Hwf1 & Hperm1 & Hit1 & Htb1 & Hlen1).
    rewrite Hs1 in Hs1'. injection Hs1' as <-.
    pose proof (probe_result (table s') k p (wf_table _ Hwf1) Hpos1 Hp) as Hpr.
    split_and!; try done. destruct p as [i ekey w|i].
    + destruct Hpr as [-> Hi]. rewrite <- Hperm1. by eapply lookup_in_pairs.
    + destruct Hpr as (_ & Hk & _). by rewrite <- (keys_perm _ _ Hperm1).
Qed.

Lemma remove_wf s k s' r :
  wf s -> remove s k = Ret (s', r) ->
  wf s' /\ length (table s') = length (table s) /\
  match r with
  | Some w => items s' = items s - 1 /\ pairs (table s) ≡ₚ (k, w) :: pairs (table s')
  | None => items s' = items s /\ pairs (table s') ≡ₚ pairs (table s) /\ k ∉ keys (table s)
  end.
Proof.
  intros Hwf H.
  apply remove_inv in H as [(H0 & -> & ->)|(Hpos & s1 & p & Hs1 & Hpos1 & Hp & Hres)].
  - split_and!; try done. rewrite keys_nil by done. apply not_elem_of_nil.
  - destruct (pre_declutter s Hwf) as (s1' & Hs1' & Hwf1 & Hperm1 & Hit1 & Htb1 & Hlen1).
    rewrite Hs1 in Hs1'. injection Hs1' as <-.
    pose proof (probe_result (table s1) k p (wf_table _ Hwf1) Hpos1 Hp) as Hpr.
    destruct Hwf1 as [Hi1 Ht1 Hok1].
    destruct p as [i ekey w|i].
    + destruct Hpr as [-> Hi]. destruct Hres as [-> ->].
      destruct (tomb_ok _ i k w Hok1 Hi) as (Hok' & Hc & Hd & Hr).
      simpl. rewrite length_insert. split; [split; simpl; [lia|lia|done]|].
      split; [done|]. split; [lia|]. by rewrite <- Hperm1.
    + destruct Hpr as (_ & Hk & _). destruct Hres as [-> ->].
      split; [done|]. split; [done|]. split; [done|]. split; [done|].
      by rewrite <- (keys_perm _ _ Hperm1).
Qed.

Lemma contains_key_inv s k s' b :
  contains_key s k = Ret (s', b) ->
  exists r, get s k = Ret (s', r) /\ b = match r with Some _ => true | None => false end.
Proof.
  unfold contains_key. intros H. apply bind_eq_ret in H as ([s1 r] & Hg & H).
  injection H as <- <-. by exists r.
Qed.

Lemma wf_new : wf new.
Proof.
  split; try done. split; [constructor|]. intros i k v Hi. done.
Qed.

Lemma step_wf s op s' : wf s -> step s op = Ret s' -> wf s'.
Proof.
  intros Hwf H. destruct op as [k v|k|k|k]; simpl in H;
    apply bind_eq_ret in H as ([s1 r] & Hop & [= <-]).
  - by apply insert_wf in Hop as [? _].
  - by apply get_wf in Hop as [? _].
  - apply contains_key_inv in Hop as (r' & Hg & _). by apply get_wf in Hg as [? _].
  - by apply remove_wf in Hop as [? _].
Qed.

Lemma reachable_wf s : reachable s -> wf s.
Proof.
  induction 1 as [|s op s' _ IH Hstep]; [apply wf_new|]. by eapply step_wf.
Qed.

(** ** Operations that succeed *)

Lemma len_eqb_false s : 0 < length (table s) -> (length (table s) =? 0) = false.
Proof. intros. apply Nat.eqb_neq. lia. Qed.

Lemma in_pairs_pos t k v : In (k, v) (pairs t) -> 0 < length t.
Proof. intros Hin. apply in_pairs_lookup in Hin as [i Hi]. apply lookup_lt_Some in Hi. lia. Qed.

Lemma free_slot_after_declutter s s1 :
  wf s -> wf s1 -> 0 < length (table s) -> items s < length (table s) ->
  (if contaminated s then resize s true else Ret s) = Ret s1 ->
  items s1 = items s -> tombs s1 = (if contaminated s then 0 else tombs s) ->
  length (table s1) = length (table s) ->
  exists e, table s1 !! e = Some Empty.
Proof.
  intros Hwf Hwf1 Hpos Hlt Hs1 Hit Htb Hlen. apply empty_exists.
  rewrite <- (wf_items _ Hwf1), <- (wf_tombs _ Hwf1), Hit, Htb, Hlen.
  destruct (contaminated s) eqn:Hc; [lia|].
  injection Hs1 as <-. unfold contaminated in Hc. apply Nat.ltb_ge in Hc.
  pose proof (three_quarters (length (table s))). lia.
Qed.

Lemma get_present s k v :
  wf s -> In (k, v) (pairs (table s)) -> exists s', get s k = Ret (s', Some v).
Proof.
  intros Hwf Hin. pose proof (in_pairs_pos _ _ _ Hin) as Hpos.
  destruct (pre_declutter s Hwf) as (s1 & Hs1 & Hwf1 & Hperm1 & Hit1 & Htb1 & Hlen1).
  rewrite <- Hperm1 in Hin. apply in_pairs_lookup in Hin as [i Hi].
  unfold get, prehash. rewrite len_eqb_false, Hs1, bind_ret, umod_pos, bind_ret by lia.
  rewrite (probe_present _ _ _ _ (wf_table _ Hwf1) Hi). by eexists.
Qed.

Lemma get_absent s k :
  wf s -> items s < length (table s) -> k ∉ keys (table s) ->
  exists s', get s k = Ret (s', None) /\ tombs s' = (if contaminated s then 0 else tombs s).
Proof.
  intros Hwf Hlt Hk. assert (Hpos : 0 < length (table s)) by lia.
  destruct (pre_declutter s Hwf) as (s1 & Hs1 & Hwf1 & Hperm1 & Hit1 & Htb1 & Hlen1).
  destruct (free_slot_after_declutter s s1) as [e He]; try done.
  rewrite <- (keys_perm _ _ Hperm1) in Hk.
  destruct (probe_absent (table s1) k Hk (ex_intro _ e He)) as (i & Hp & _).
  unfold get, prehash. rewrite len_eqb_false, Hs1, bind_ret, umod_pos, bind_ret by lia.
  rewrite Hp. by eexists.
Qed.

Lemma remove_absent s k :
  wf s -> items s < length (table s) -> k ∉ keys (table s) ->
  exists s', remove s k = Ret (s', None).
Proof.
  intros Hwf Hlt Hk. assert (Hpos : 0 < length (table s)) by lia.
  destruct (pre_declutter s Hwf) as (s1 & Hs1 & Hwf1 & Hperm1 & Hit1 & Htb1 & Hlen1).
  destruct (free_slot_after_declutter s s1) as [e He]; try done.
  rewrite <- (keys_perm _ _ Hperm1) in Hk.
  destruct (probe_absent (table s1) k Hk (ex_intro _ e He)) as (i & Hp & _).
  unfold remove, prehash. rewrite len_eqb_false, Hs1, bind_ret, umod_pos, bind_ret by lia.
  rewrite Hp. by eexists.
Qed.

Lemma insert_present s k old v :
  wf s -> In (k, old) (pairs (table s)) -> exists s', insert s k v = Ret (s', Some old).
Proof.
  intros Hwf Hin.
  destruct (pre_grow s Hwf) as (s1 & Hs1 & Hwf1 & Hperm1 & Hit1 & Htb1 & Hlen1).
  rewrite <- Hperm1 in Hin. pose proof (in_pairs_pos _ _ _ Hin) as Hpos.
  apply in_pairs_lookup in Hin as [i Hi].
  unfold insert, prehash. rewrite Hs1, bind_ret, umod_pos, bind_ret by lia.
  rewrite (probe_present _ _ _ _ (wf_table _ Hwf1) Hi). by eexists.
Qed.

(** ** Runs that leave one key alone *)

Lemma keys_In t k : k ∈ keys t <-> exists w, In (k, w) (pairs t).
Proof.
  unfold keys. rewrite list_elem_of_In, in_map_iff. split.
  - intros ([k' w] & <- & Hin). by exists w.
  - intros [w Hin]. by exists (k, w).
Qed.

Lemma run_keeps_value s ops s' k v :
  wf s -> In (k, v) (pairs (table s)) -> Forall (fun op => ~ touches k op) ops ->
  run s ops = Ret s' -> wf s' /\ In (k, v) (pairs (table s')).
Proof.
  revert s. induction ops as [|op ops IH]; intros s Hwf Hin Hops Hrun.
  - simpl in Hrun. injection Hrun as <-. auto.
  - inversion Hops as [|? ? Hop Hrest]; subst. simpl in Hrun.
    apply bind_eq_ret in Hrun as (s1 & Hstep & Hrun).
    enough (wf s1 /\ In (k, v) (pairs (table s1))) as [? ?] by (apply (IH s1); done).
    destruct op as [k' v'|k'|k'|k']; simpl in Hstep, Hop;
      apply bind_eq_ret in Hstep as ([s2 r] & Hcall & [= <-]).
    + destruct (insert_wf _ _ _ _ _ Hwf Hcall) as (Hwf2 & _ & _ & Hr).
      split; [done|]. destruct r as [old|].
      * destruct Hr as (_ & rest & Hr1 & Hr2). eapply Permutation_in; [symmetry; exact Hr2|].
        apply (Permutation_in _ Hr1) in Hin as [[= Hkk _]|Hin]; [by exfalso; apply Hop|]. by right.
      * destruct Hr as (_ & _ & Hr). eapply Permutation_in; [symmetry; exact Hr|]. by right.
    + destruct (get_wf _ _ _ _ Hwf Hcall) as (Hwf2 & _ & _ & Hperm & _).
      split; [done|]. by rewrite Hperm.
    + apply contains_key_inv in Hcall as (r' & Hg & _).
      destruct (get_wf _ _ _ _ Hwf Hg) as (Hwf2 & _ & _ & Hperm & _).
      split; [done|]. by rewrite Hperm.
    + destruct (remove_wf _ _ _ _ Hwf Hcall) as (Hwf2 & _ & Hr).
      split; [done|]. destruct r as [w|].
      * destruct Hr as (_ & Hr). apply (Permutation_in _ Hr) in Hin as [[= Hkk _]|Hin]; [by exfalso; apply Hop|done].
      * destruct Hr as (_ & Hperm & _). by rewrite Hperm.
Qed.

Lemma run_keeps_absent s ops s' k :
  wf s -> (k ∉ keys (table s)) -> items s < length (table s) ->
  Forall (fun op => ~ inserts k op) ops ->
  run s ops = Ret s' ->
  wf s' /\ (k ∉ keys (table s')) /\ items s' < length (table s').
Proof.
  revert s. induction ops as [|op ops IH]; intros s Hwf Hk Hlt Hops Hrun.
  - simpl in Hrun. injection Hrun as <-. auto.
  - inversion Hops as [|? ? Hop Hrest]; subst. simpl in Hrun.
    apply bind_eq_ret in Hrun as (s1 & Hstep & Hrun).
    enough (wf s1 /\ (k ∉ keys (table s1)) /\ items s1 < length (table s1)) as (? & ? & ?)
      by (apply (IH s1); done).
    rewrite keys_In in Hk.
    destruct op as [k' v'|k'|k'|k']; simpl in Hstep, Hop;
      apply bind_eq_ret in Hstep as ([s2 r] & Hcall & [= <-]).
    + destruct (insert_wf _ _ _ _ _ Hwf Hcall) as (Hwf2 & Hlen & _ & Hr).
      split; [done|]. rewrite keys_In.
      pose proof (three_quarters (length (table s))).
      destruct r as [old|].
      * destruct Hr as (Hit & rest & Hr1 & Hr2). split.
        -- intros [w Hw]. apply (Permutation_in _ Hr2) in Hw as [[= Hkk _]|Hw]; [by apply Hop|].
           apply Hk. exists w. eapply Permutation_in; [symmetry; exact Hr1|]. by right.
        -- rewrite Hlen, Hit. destruct (needs_growth s); lia.
      * destruct Hr as (Hit & _ & Hr). split.
        -- intros [w Hw]. apply (Permutation_in _ Hr) in Hw as [[= Hkk _]|Hw]; [by apply Hop|].
           apply Hk. by exists w.
        -- rewrite Hlen, Hit. unfold needs_growth in *.
           destruct (length (table s) =? 0) eqn:E0; [apply Nat.eqb_eq in E0; lia|].
           destruct (3 * length (table s) / 4 <=? items s) eqn:E1; simpl; [lia|].
           apply Nat.leb_gt in E1. lia.
    + destruct (get_wf _ _ _ _ Hwf Hcall) as (Hwf2 & Hlen & Hit & Hperm & _).
      split; [done|]. rewrite keys_In, Hlen, Hit. split; [|done].
        intros [w Hw]. apply Hk. exists w. eapply Permutation_in; [exact Hperm|exact Hw].
    + apply contains_key_inv in Hcall as (r' & Hg & _).
      destruct (get_wf _ _ _ _ Hwf Hg) as (Hwf2 & Hlen & Hit & Hperm & _).
      split; [done|]. rewrite keys_In, Hlen, Hit. split; [|done].
        intros [w Hw]. apply Hk. exists w. eapply Permutation_in; [exact Hperm|exact Hw].
    + destruct (remove_wf _ _ _ _ Hwf Hcall) as (Hwf2 & Hlen & Hr).
      split; [done|]. rewrite keys_In, Hlen. destruct r as [w|].
      * destruct Hr as (Hit & Hr). split; [|lia].
        intros [w' Hw']. apply Hk. exists w'. eapply Permutation_in; [symmetry; exact Hr|]. by right.
      * destruct Hr as (Hit & Hperm & _). rewrite Hit. split; [|done].
        intros [w Hw]. apply Hk. exists w. eapply Permutation_in; [exact Hperm|exact Hw].
Qed.


Lemma run_reachable s ops s' : reachable s -> run s ops = Ret s' -> reachable s'.
Proof.
  revert s. induction ops as [|op ops IH]; intros s Hr Hrun; simpl in Hrun.
  - by injection Hrun as <-.
  - apply bind_eq_ret in Hrun as (s1 & Hstep & Hrun).
    apply (IH s1); [by apply (reach_step s op s1)|done].
Qed.

Lemma grow_n_length m s :
  0 < length (table s) ->
  exists s', grow_n m s = Ret s' /\ length (table s') = 2 ^ m * length (table s).
Proof.
  revert s. induction m as [|m IH]; intros s Hpos.
  - exists s. simpl. split; [done|lia].
  - destruct (resize_spec s false) as (s1 & Hr & Hlen & _).
    destruct (IH s1) as (s2 & Hg & Hlen2); [rewrite Hlen; lia|].
    exists s2. simpl. rewrite Hr, bind_ret. split; [done|].
    rewrite Hlen2, Hlen. replace (Nat.max 1 (2 * length (table s))) with (2 * length (table s)) by lia.
    nia.
Qed.

Lemma needs_growth_iff s :
  needs_growth s = true <-> length (table s) = 0 \/ 3 * length (table s) / 4 <= items s.
Proof. unfold needs_growth. by rewrite orb_true_iff, Nat.eqb_eq, Nat.leb_le. Qed.

(** C2 (as the code does it): [insert] grows first exactly when the table
    is empty or [items >= 3 * capacity / 4] (integer division, rounding
    down); the growth fixes the capacity the probe runs on, the result has
    capacity [max 1 (2 * capacity)] and no tombstones; otherwise capacity and
    tombstone count are kept.  This holds in every state. *)
Theorem insert_growth s k v s' r :
  insert s k v = Ret (s', r) ->
  (needs_growth s = true <-> length (table s) = 0 \/ 3 * length (table s) / 4 <= items s) /\
  length (table s') =
    (if needs_growth s then Nat.max 1 (2 * length (table s)) else length (table s)) /\
  tombs s' = (if needs_growth s then 0 else tombs s).
Proof.
  intros H. split; [apply needs_growth_iff|].
  apply insert_inv in H as (s1 & p & Hs1 & _ & _ & Hm).
  assert (Hs1' : length (table s') = length (table s1) /\ tombs s' = tombs s1).
  { destruct p; destruct Hm as [-> _]; simpl; by rewrite length_insert. }
  rewrite (proj1 Hs1'), (proj2 Hs1').
  destruct (needs_growth s).
  - destruct (resize_spec s false) as (s2 & Hr & Hlen & _ & Htb & _).
    rewrite Hr in Hs1. injection Hs1 as <-. auto.
  - by injection Hs1 as <-.
Qed.

(** C4 (as the code does it): when [remove k] finds no live pair for [k]
    it returns [None] and the map is logically unchanged: on an empty table,
    or when no declutter is due, the state is untouched; when the declutter
    ran first, capacity, [items] and the live pairs are kept and only the
    tombstones are gone. *)
Theorem remove_miss s k s' :
  remove s k = Ret (s', None) ->
  if (0 <? length (table s)) && contaminated s then
    length (table s') = length (table s) /\ items s' = items s /\ tombs s' = 0 /\
    count_del (table s') = 0 /\ pairs (table s') ≡ₚ pairs (table s)
  else s' = s.
Proof.
  intros H. apply remove_inv in H as [(H0 & -> & _)|(Hpos & s1 & p & Hs1 & _ & _ & Hm)].
  - rewrite H0. simpl. done.
  - destruct p as [i ekey w|i]; destruct Hm as [Hs' Hr]; [done|]. subst s'.
    assert (Hlt : (0 <? length (table s)) = true) by (apply Nat.ltb_lt; lia).
    rewrite Hlt. simpl. destruct (contaminated s).
    + destruct (resize_spec s true) as (s2 & Hr' & Hlen & Hit & Htb & Hdel & _ & Hperm).
      rewrite Hr' in Hs1. injection Hs1 as <-. auto.
    + by injection Hs1 as <-.
Qed.

(** C6 (as the code does it): in a reachable state holding a live pair
    [(k, old)], [insert k v] returns [Some old] and keeps [len()]; the
    tombstone count is kept unless the growth check fires first, in which
    case the growth drops all tombstones. *)
Theorem insert_update s i k old v :
  reachable s -> table s !! i = Some (Pair k old) ->
  exists s', insert s k v = Ret (s', Some old) /\ len s' = len s /\
    tombs s' = (if needs_growth s then 0 else tombs s).
Proof.
  intros Hr Hi. pose proof (reachable_wf s Hr) as Hwf.
  destruct (insert_present s k old v Hwf) as [s' Hins].
  { eapply lookup_in_pairs. exact Hi. }
  exists s'. split; [done|].
  destruct (insert_wf _ _ _ _ _ Hwf Hins) as (_ & _ & Htb & Hit & _).
  unfold len. auto.
Qed.

(** C7: on [new] (capacity 0, no items, no tombstones) [get], [contains_key]
    and [remove] report absence and return the state unchanged: no slot
    array is allocated and no counter moves. *)
Theorem new_absent k :
  get new k = Ret (new, None) /\ contains_key new k = Ret (new, false) /\
  remove new k = Ret (new, None).
Proof. split_and!; reflexivity. Qed.


(** C5: in a reachable state, after [insert k v] succeeds, any run of
    operations that neither inserts nor removes [k] ends in a state where
    [get k] returns [Some v]; after [remove k] succeeds with [Some w], any
    run of operations that does not insert [k] ends in a state where
    [get k] returns [None], [contains_key k] returns [false] and a further
    [remove k] returns [None]. *)
Theorem round_trip s k :
  reachable s ->
  (forall v s1 r ops s2,
     insert s k v = Ret (s1, r) -> Forall (fun op => ~ touches k op) ops ->
     run s1 ops = Ret s2 -> exists s3, get s2 k = Ret (s3, Some v)) /\
  (forall w s1 ops s2,
     remove s k = Ret (s1, Some w) -> Forall (fun op => ~ inserts k op) ops ->
     run s1 ops = Ret s2 ->
     (exists s3, get s2 k = Ret (s3, None)) /\
     (exists s3, contains_key s2 k = Ret (s3, false)) /\
     (exists s3, remove s2 k = Ret (s3, None))).
Proof.
  intros Hr. pose proof (reachable_wf s Hr) as Hwf. split.
  - intros v s1 r ops s2 Hins Hops Hrun.
    destruct (insert_wf _ _ _ _ _ Hwf Hins) as (Hwf1 & _ & _ & Hres).
    assert (Hin : In (k, v) (pairs (table s1))).
    { destruct r as [old|].
      - destruct Hres as (_ & rest & _ & Hp). eapply Permutation_in; [symmetry; exact Hp|]. by left.
      - destruct Hres as (_ & _ & Hp). eapply Permutation_in; [symmetry; exact Hp|]. by left. }
    destruct (run_keeps_value _ _ _ _ _ Hwf1 Hin Hops Hrun) as [Hwf2 Hin2].
    by apply get_present.
  - intros w s1 ops s2 Hrem Hops Hrun.
    destruct (remove_wf _ _ _ _ Hwf Hrem) as (Hwf1 & Hlen & Hit & Hp).
    assert (Hk1 : k ∉ keys (table s1)).
    { pose proof (Permutation_map fst Hp) as Hkp. pose proof (wf_table _ Hwf) as [Hnd _].
      unfold keys in *. rewrite Hkp in Hnd. simpl in Hnd.
      apply NoDup_cons in Hnd as [Hnotin _]. exact Hnotin. }
    assert (Hlt1 : items s1 < length (table s1)).
    { rewrite Hit, Hlen, (wf_items _ Hwf), <- length_pairs.
      pose proof (Permutation_length Hp) as Hl. simpl in Hl.
      pose proof (count_pairs_le (table s)). rewrite <- length_pairs in *. lia. }
    destruct (run_keeps_absent _ _ _ _ Hwf1 Hk1 Hlt1 Hops Hrun) as (Hwf2 & Hk2 & Hlt2).
    destruct (get_absent _ _ Hwf2 Hlt2 Hk2) as (s3 & Hg & _).
    split; [by exists s3|]. split.
    + exists s3. unfold contains_key. by rewrite Hg.
    + by apply remove_absent.
Qed.

(** C8: a growth resize always succeeds, sets the capacity to
    [max 1 (2 * capacity)], drops every tombstone ([tombs = 0], no [Del]
    slot left), keeps [items] and keeps the live pairs; from [new], [m + 1]
    growth resizes in a row give capacity [2 ^ m] (1, 2, 4, 8, ...). *)
Theorem growth_resize :
  (forall s, exists s', resize s false = Ret s' /\
     length (table s') = Nat.max 1 (2 * length (table s)) /\
     tombs s' = 0 /\ count_del (table s') = 0 /\ items s' = items s /\
     pairs (table s') ≡ₚ pairs (table s)) /\
  (forall m, exists s', grow_n (S m) new = Ret s' /\ length (table s') = 2 ^ m).
Proof.
  split.
  - intros s. destruct (resize_spec s false) as (s' & Hr & Hlen & Hit & Htb & Hdel & _ & Hp).
    exists s'. by split_and!.
  - intros m. destruct (resize_spec new false) as (s1 & Hr & Hlen & _).
    destruct (grow_n_length m s1) as (s2 & Hg & Hlen2); [rewrite Hlen; simpl; lia|].
    exists s2. change (grow_n (S m) new) with (resize new false ≫= grow_n m). rewrite Hr, bind_ret. split; [done|].
    rewrite Hlen2, Hlen. simpl. lia.
Qed.

(** C9: in every reachable state [items <= capacity],
    [tombs <= capacity - items], and no two slots hold a pair with the same
    key. *)
Theorem reachable_bounds s :
  reachable s ->
  items s <= length (table s) /\ tombs s <= length (table s) - items s /\
  (forall i j k v w, table s !! i = Some (Pair k v) -> table s !! j = Some (Pair k w) -> i = j).
Proof.
  intros Hr. pose proof (reachable_wf s Hr) as [Hit Htb [Hnd _]].
  pose proof (length_counts (table s)). split_and!; [lia|lia|].
  intros i j k v w Hi Hj. exact (keys_unique _ _ _ _ _ _ Hnd Hi Hj).
Qed.

(** C10: in every reachable state [items] is the number of [Pair] slots
    and [tombs] the number of [Del] slots. *)
Theorem reachable_counters s :
  reachable s -> items s = count_pairs (table s) /\ tombs s = count_del (table s).
Proof. intros Hr. pose proof (reachable_wf s Hr) as [Hit Htb _]. auto. Qed.


(** ** Further properties of the operations *)

Lemma lookup_empty_counts t i :
  t !! i = Some Empty -> count_pairs t + count_del t < length t.
Proof.
  revert i. induction t as [|e t IH]; intros i Hi; [done|].
  pose proof (length_counts t).
  destruct i as [|i]; simpl in Hi.
  - injection Hi as ->. simpl. lia.
  - specialize (IH i Hi). destruct e; simpl; lia.
Qed.

Lemma key_value_unique t k v w :
  NoDup (keys t) -> In (k, v) (pairs t) -> In (k, w) (pairs t) -> v = w.
Proof.
  intros Hnd Hv Hw.
  apply in_pairs_lookup in Hv as [i Hi]. apply in_pairs_lookup in Hw as [j Hj].
  pose proof (keys_unique _ _ _ _ _ _ Hnd Hi Hj) as <-.
  rewrite Hi in Hj. by injection Hj.
Qed.

Lemma perm_in_iff {A} (l l' : list A) x : l ≡ₚ l' -> In x l <-> In x l'.
Proof. intros Hp. split; apply Permutation_in; [done|by symmetry]. Qed.

Lemma not_keys_perm t t' k : pairs t' ≡ₚ pairs t -> k ∉ keys t -> k ∉ keys t'.
Proof.
  rewrite !keys_In. intros Hp Hk [w Hw]. apply Hk. exists w. by apply (perm_in_iff _ _ _ Hp).
Qed.

Lemma nodup_head_gone t t' k w :
  NoDup (keys t) -> pairs t ≡ₚ (k, w) :: pairs t' -> k ∉ keys t'.
Proof.
  intros Hnd Hp. pose proof (Permutation_map fst Hp) as Hkp.
  unfold keys in *. rewrite Hkp in Hnd. simpl in Hnd.
  by apply NoDup_cons in Hnd as [Hnotin _].
Qed.

Lemma remove_present s k v :
  wf s -> In (k, v) (pairs (table s)) -> exists s', remove s k = Ret (s', Some v).
Proof.
  intros Hwf Hin. pose proof (in_pairs_pos _ _ _ Hin) as Hpos.
  destruct (pre_declutter s Hwf) as (s1 & Hs1 & Hwf1 & Hperm1 & Hit1 & Htb1 & Hlen1).
  rewrite <- Hperm1 in Hin. apply in_pairs_lookup in Hin as [i Hi].
  unfold remove, prehash. rewrite len_eqb_false, Hs1, bind_ret, umod_pos, bind_ret by lia.
  rewrite (probe_present _ _ _ _ (wf_table _ Hwf1) Hi). by eexists.
Qed.

Lemma step_load s op s' :
  wf s -> (4 <= length (table s) -> items s <= 3 * length (table s) / 4) ->
  step s op = Ret s' ->
  4 <= length (table s') -> items s' <= 3 * length (table s') / 4.
Proof.
  intros Hwf Hload H. pose proof (count_pairs_le (table s)) as Hle.
  rewrite <- (wf_items _ Hwf) in Hle.
  destruct op as [k v|k|k|k]; simpl in H;
    apply bind_eq_ret in H as ([s1 r] & Hop & [= <-]).
  - destruct (insert_wf _ _ _ _ _ Hwf Hop) as (_ & Hlen & _ & Hr).
    assert (Hit : items s1 <= S (items s)) by (destruct r; destruct Hr as [-> _]; lia).
    rewrite Hlen. intros H4. pose proof (needs_growth_iff s) as Hg.
    destruct (needs_growth s).
    + assert (E0 : length (table s) <> 0) by (intros E; rewrite E in H4; simpl in H4; lia).
      replace (Nat.max 1 (2 * length (table s))) with (2 * length (table s)) in * by lia.
      pose proof (three_quarters (2 * length (table s))). lia.
    + assert (E1 : ~ (length (table s) = 0 \/ 3 * length (table s) / 4 <= items s))
        by (intros Hc; by apply Hg in Hc).
      destruct r; destruct Hr as [-> _]; lia.
  - destruct (get_wf _ _ _ _ Hwf Hop) as (_ & Hlen & Hit & _). rewrite Hlen, Hit. done.
  - apply contains_key_inv in Hop as (r' & Hg & _).
    destruct (get_wf _ _ _ _ Hwf Hg) as (_ & Hlen & Hit & _). rewrite Hlen, Hit. done.
  - destruct (remove_wf _ _ _ _ Hwf Hop) as (_ & Hlen & Hr). rewrite Hlen.
    destruct r; destruct Hr as [-> _]; lia.
Qed.

Lemma step_pow2 s op s' :
  wf s -> step s op = Ret s' ->
  (length (table s) = 0 \/ exists m, length (table s) = 2 ^ m) ->
  length (table s') = 0 \/ exists m, length (table s') = 2 ^ m.
Proof.
  intros Hwf H Hp.
  destruct op as [k v|k|k|k]; simpl in H;
    apply bind_eq_ret in H as ([s1 r] & Hop & [= <-]).
  - destruct (insert_wf _ _ _ _ _ Hwf Hop) as (_ & Hlen & _). rewrite Hlen.
    destruct (needs_growth s); [|done]. right.
    destruct Hp as [-> | [m ->]].
    + exists 0. done.
    + exists (S m). rewrite Nat.pow_succ_r'. pose proof (Nat.pow_nonzero 2 m). lia.
  - destruct (get_wf _ _ _ _ Hwf Hop) as (_ & Hlen & _). by rewrite Hlen.
  - apply contains_key_inv in Hop as (r' & Hg & _).
    destruct (get_wf _ _ _ _ Hwf Hg) as (_ & Hlen & _). by rewrite Hlen.
  - destruct (remove_wf _ _ _ _ Hwf Hop) as (_ & Hlen & _). by rewrite Hlen.
Qed.

Lemma reachable_load s :
  reachable s -> 4 <= length (table s) -> items s <= 3 * length (table s) / 4.
Proof.
  induction 1 as [|s op s' Hr IH Hstep]; [simpl; lia|].
  apply (step_load s op); try done. by apply reachable_wf.
Qed.

Lemma insert_no_tombs s k v :
  wf s -> tombs s = 0 -> exists s' r, insert s k v = Ret (s', r).
Proof.
  intros Hwf Htb.
  destruct (pre_grow s Hwf) as (s1 & Hs1 & Hwf1 & Hperm1 & Hit1 & Htb1 & Hlen1).
  assert (Hlt : items s1 < length (table s1)).
  { pose proof (count_pairs_le (table s)) as Hle. rewrite <- (wf_items _ Hwf) in Hle.
    rewrite Hit1, Hlen1. pose proof (needs_growth_iff s) as Hg.
    pose proof (three_quarters (length (table s))).
    destruct (needs_growth s); [lia|].
    assert (E1 : ~ (length (table s) = 0 \/ 3 * length (table s) / 4 <= items s))
      by (intros Hc; by apply Hg in Hc).
    lia. }
  assert (He : exists e, table s1 !! e = Some Empty).
  { apply empty_exists. rewrite <- (wf_items _ Hwf1), <- (wf_tombs _ Hwf1), Htb1, Htb.
    destruct (needs_growth s); lia. }
  unfold insert, prehash. rewrite Hs1, bind_ret, umod_pos, bind_ret by lia.
  destruct (decide (k ∈ keys (table s1))) as [Hin|Hk].
  - apply keys_In in Hin as [w Hw]. apply in_pairs_lookup in Hw as [i Hi].
    rewrite (probe_present _ _ _ _ (wf_table _ Hwf1) Hi). eauto.
  - destruct (probe_absent (table s1) k Hk He) as (i & Hp & _). rewrite Hp. eauto.
Qed.

Lemma run_cons s op ops : run s (op :: ops) = (step s op ≫= fun s' => run s' ops).
Proof. reflexivity. Qed.

Lemma step_insert s k v : step s (OpInsert k v) = (insert s k v ≫= fun r => Ret r.1).
Proof. reflexivity. Qed.

Lemma insert_keys s k v s' r :
  wf s -> insert s k v = Ret (s', r) ->
  forall k', k' ∈ keys (table s') <-> k' = k \/ k' ∈ keys (table s).
Proof.
  intros Hwf Hins k'. destruct (insert_wf _ _ _ _ _ Hwf Hins) as (_ & _ & _ & Hr).
  rewrite !keys_In. destruct r as [old|].
  - destruct Hr as (_ & rest & Hr1 & Hr2). split.
    + intros [w Hw]. apply (perm_in_iff _ _ _ Hr2) in Hw as [[= -> _]|Hw]; [by left|].
      right. exists w. apply (perm_in_iff _ _ _ Hr1). by right.
    + intros [->|[w Hw]].
      * exists v. apply (perm_in_iff _ _ _ Hr2). by left.
      * apply (perm_in_iff _ _ _ Hr1) in Hw as [[= -> _]|Hw].
        -- exists v. apply (perm_in_iff _ _ _ Hr2). by left.
        -- exists w. apply (perm_in_iff _ _ _ Hr2). by right.
  - destruct Hr as (_ & _ & Hr). split.
    + intros [w Hw]. apply (perm_in_iff _ _ _ Hr) in Hw as [[= -> _]|Hw]; [by left|].
      right. by exists w.
    + intros [->|[w Hw]].
      * exists v. apply (perm_in_iff _ _ _ Hr). by left.
      * exists w. apply (perm_in_iff _ _ _ Hr). by right.
Qed.

Lemma run_inserts s kvs :
  wf s -> tombs s = 0 ->
  exists s', run s (map (fun kv => OpInsert kv.1 kv.2) kvs) = Ret s' /\ wf s' /\
    tombs s' = 0 /\
    forall k, k ∈ keys (table s') <-> k ∈ kvs.*1 \/ k ∈ keys (table s).
Proof.
  revert s. induction kvs as [|[k v] kvs IH]; intros s Hwf Htb.
  - exists s. split_and!; try done. intros k. simpl. rewrite elem_of_nil. tauto.
  - destruct (insert_no_tombs s k v Hwf Htb) as (s1 & r & Hins).
    destruct (insert_wf _ _ _ _ _ Hwf Hins) as (Hwf1 & _ & Htb1 & _).
    assert (Htb1' : tombs s1 = 0) by (rewrite Htb1; by destruct (needs_growth s)).
    destruct (IH s1 Hwf1 Htb1') as (s2 & Hrun & Hwf2 & Htb2 & Hkeys).
    exists s2. simpl map. rewrite run_cons, step_insert, Hins. simpl.
    split_and!; try done.
    intros k'. rewrite Hkeys, (insert_keys _ _ _ _ _ Hwf Hins), elem_of_cons. tauto.
Qed.


(** [insert k v] in a reachable state: afterwards [k] maps to [v] alone,
    every other key keeps its pairs, and the result tells whether [k] was
    there: [Some old] with [old] its previous value and [len()] kept, or
    [None] with [k] previously absent and [len()] one larger. *)
Theorem insert_contents s k v s' r :
  reachable s -> insert s k v = Ret (s', r) ->
  In (k, v) (pairs (table s')) /\
  (forall w, In (k, w) (pairs (table s')) -> w = v) /\
  (forall k' w, k' <> k -> In (k', w) (pairs (table s')) <-> In (k', w) (pairs (table s))) /\
  match r with
  | Some old => In (k, old) (pairs (table s)) /\ len s' = len s
  | None => (k ∉ keys (table s)) /\ len s' = S (len s)
  end.
Proof.
  intros Hr Hins. pose proof (reachable_wf s Hr) as Hwf.
  destruct (insert_wf _ _ _ _ _ Hwf Hins) as (Hwf1 & _ & _ & Hres).
  assert (Hin : In (k, v) (pairs (table s'))).
  { destruct r as [old|].
    - destruct Hres as (_ & rest & _ & Hp). apply (perm_in_iff _ _ _ Hp). by left.
    - destruct Hres as (_ & _ & Hp). apply (perm_in_iff _ _ _ Hp). by left. }
  split; [done|]. split.
  { intros w Hw. exact (key_value_unique _ _ _ _ (proj1 (wf_table _ Hwf1)) Hw Hin). }
  unfold len. destruct r as [old|].
  - destruct Hres as (Hit & rest & Hp1 & Hp2). split; [|split; [|done]].
    + intros k' w Hk'. rewrite (perm_in_iff _ _ _ Hp1), (perm_in_iff _ _ _ Hp2).
      simpl. split; intros [[= -> _]|Hw]; try done; by right.
    + apply (perm_in_iff _ _ _ Hp1). by left.
  - destruct Hres as (Hit & Hk & Hp). split; [|done].
    intros k' w Hk'. rewrite (perm_in_iff _ _ _ Hp). simpl.
    split; [intros [[= -> _]|Hw]; done|by right].
Qed.

(** [get k] in a reachable state keeps the stored pairs, [len()] and the
    capacity, and its answer is right: [Some w] only if [(k, w)] is stored,
    [None] only if [k] is absent. *)
Theorem get_contents s k s' r :
  reachable s -> get s k = Ret (s', r) ->
  pairs (table s') ≡ₚ pairs (table s) /\ len s' = len s /\
  length (table s') = length (table s) /\
  match r with
  | Some w => In (k, w) (pairs (table s))
  | None => k ∉ keys (table s)
  end.
Proof.
  intros Hr Hg. destruct (get_wf _ _ _ _ (reachable_wf s Hr) Hg) as (_ & Hlen & Hit & Hp & Hres).
  unfold len. by split_and!.
Qed.

(** [contains_key k] in a reachable state answers [true] exactly when [k]
    is stored, and keeps the stored pairs and [len()]. *)
Theorem contains_key_correct s k s' b :
  reachable s -> contains_key s k = Ret (s', b) ->
  (b = true <-> k ∈ keys (table s)) /\
  pairs (table s') ≡ₚ pairs (table s) /\ len s' = len s.
Proof.
  intros Hr Hc. apply contains_key_inv in Hc as (r & Hg & ->).
  destruct (get_wf _ _ _ _ (reachable_wf s Hr) Hg) as (_ & _ & Hit & Hp & Hres).
  unfold len. split_and!; try done. destruct r as [w|].
  - split; [|done]. intros _. apply keys_In. by exists w.
  - split; [done|]. by intros Hk.
Qed.

(** [remove k] in a reachable state leaves [k] absent, keeps the capacity
    and the pairs of every other key; [Some w] means [(k, w)] was stored and
    [len()] drops by one, [None] means [k] was absent and [len()] is kept. *)
Theorem remove_contents s k s' r :
  reachable s -> remove s k = Ret (s', r) ->
  length (table s') = length (table s) /\ (k ∉ keys (table s')) /\
  (forall k' w, k' <> k -> In (k', w) (pairs (table s')) <-> In (k', w) (pairs (table s))) /\
  match r with
  | Some w => In (k, w) (pairs (table s)) /\ len s' = len s - 1
  | None => (k ∉ keys (table s)) /\ len s' = len s
  end.
Proof.
  intros Hr Hrem. pose proof (reachable_wf s Hr) as Hwf.
  destruct (remove_wf _ _ _ _ Hwf Hrem) as (_ & Hlen & Hres).
  unfold len. split; [done|]. destruct r as [w|].
  - destruct Hres as (Hit & Hp). split; [exact (nodup_head_gone _ _ _ _ (proj1 (wf_table _ Hwf)) Hp)|].
    split; [|split; [apply (perm_in_iff _ _ _ Hp); by left|done]].
    intros k' w' Hk'. rewrite (perm_in_iff _ _ _ Hp). simpl.
    split; [by right|intros [[= -> _]|Hw]; done].
  - destruct Hres as (Hit & Hp & Hk). split; [exact (not_keys_perm _ _ _ Hp Hk)|].
    split; [|done]. intros k' w _. by apply perm_in_iff.
Qed.

(** Operations on a key that is stored never fail: in a reachable state
    holding [(k, v)], [get k] returns [Some v], [contains_key k] returns
    [true], [remove k] returns [Some v], and [insert k v'] returns
    [Some v], none of them reaching the "Infinite loop!" panic. *)
Theorem present_key_total s k v :
  reachable s -> In (k, v) (pairs (table s)) ->
  (exists s', get s k = Ret (s', Some v)) /\
  (exists s', contains_key s k = Ret (s', true)) /\
  (exists s', remove s k = Ret (s', Some v)) /\
  (forall v', exists s', insert s k v' = Ret (s', Some v)).
Proof.
  intros Hr Hin. pose proof (reachable_wf s Hr) as Hwf.
  destruct (get_present s k v Hwf Hin) as [s1 Hg].
  split; [by exists s1|]. split.
  - exists s1. unfold contains_key. by rewrite Hg.
  - split; [by apply remove_present|]. intros v'. by apply insert_present.
Qed.

(** In every reachable state whose capacity is at least 4, [items] is at
    most [3 * capacity / 4]: the table always keeps a quarter of its slots
    free of live pairs. *)
Theorem reachable_load_factor s :
  reachable s -> 4 <= length (table s) -> items s <= 3 * length (table s) / 4.
Proof. apply reachable_load. Qed.

(** Lookups never panic once the capacity is 0 or at least 4: in such a
    reachable state [get], [contains_key] and [remove] return for every
    key. *)
Theorem lookups_total s k :
  reachable s -> length (table s) = 0 \/ 4 <= length (table s) ->
  (exists s' r, get s k = Ret (s', r)) /\
  (exists s' b, contains_key s k = Ret (s', b)) /\
  (exists s' r, remove s k = Ret (s', r)).
Proof.
  intros Hr Hcap. pose proof (reachable_wf s Hr) as Hwf.
  assert (Hg : exists s' r, get s k = Ret (s', r)).
  { destruct Hcap as [H0|H4].
    - unfold get. rewrite H0. simpl. eauto.
    - destruct (decide (k ∈ keys (table s))) as [Hin|Hk].
      + apply keys_In in Hin as [w Hw]. destruct (get_present s k w Hwf Hw). eauto.
      + pose proof (reachable_load s Hr H4). pose proof (three_quarters (length (table s))).
        destruct (get_absent s k Hwf ltac:(lia) Hk) as (s' & Hg & _). eauto. }
  split; [done|]. split.
  - destruct Hg as (s' & r & Hg). exists s'. eexists. unfold contains_key. by rewrite Hg.
  - destruct Hcap as [H0|H4].
    + unfold remove. rewrite H0. simpl. eauto.
    + destruct (decide (k ∈ keys (table s))) as [Hin|Hk].
      * apply keys_In in Hin as [w Hw]. destruct (remove_present s k w Hwf Hw). eauto.
      * pose proof (reachable_load s Hr H4). pose proof (three_quarters (length (table s))).
        destruct (remove_absent s k Hwf ltac:(lia) Hk). eauto.
Qed.

(** The capacity of a reachable state is 0 or a power of two. *)
Theorem reachable_capacity_pow2 s :
  reachable s -> length (table s) = 0 \/ exists m, length (table s) = 2 ^ m.
Proof.
  induction 1 as [|s op s' Hr IH Hstep]; [by left|].
  exact (step_pow2 s op s' (reachable_wf s Hr) Hstep IH).
Qed.

(** [insert] never panics on a reachable table without tombstones. *)
Theorem insert_total_no_tombs s k v :
  reachable s -> tombs s = 0 -> exists s' r, insert s k v = Ret (s', r).
Proof. intros Hr Htb. exact (insert_no_tombs s k v (reachable_wf s Hr) Htb). Qed.

(** Any sequence of inserts from [new] runs without a panic; the result has
    no tombstones and stores exactly the keys inserted. *)
Theorem inserts_from_new kvs :
  exists s', run new (map (fun kv => OpInsert kv.1 kv.2) kvs) = Ret s' /\
    tombs s' = 0 /\ forall k, k ∈ keys (table s') <-> k ∈ kvs.*1.
Proof.
  destruct (run_inserts new kvs wf_new eq_refl) as (s' & Hrun & _ & Htb & Hkeys).
  exists s'. split_and!; try done. intros k. rewrite Hkeys. unfold keys. simpl.
  rewrite elem_of_nil. tauto.
Qed.

(** The declutter mode of [resize] ([rehash_only = true]) always succeeds
    and keeps the capacity, [items] and the stored pairs; it leaves no
    [Del] slot and [tombs = 0], and every pair sits on the probe path of its
    key with no [Empty] slot before it. *)
Theorem declutter_resize s :
  exists s', resize s true = Ret s' /\
    length (table s') = length (table s) /\ items s' = items s /\
    tombs s' = 0 /\ count_del (table s') = 0 /\
    pairs (table s') ≡ₚ pairs (table s) /\
    (forall i k v, table s' !! i = Some (Pair k v) -> reach (table s') k i).
Proof.
  destruct (resize_spec s true) as (s' & Hr & Hlen & Hit & Htb & Hdel & Hreach & Hp).
  exists s'. by split_and!.
Qed.

(** In a reachable state [len()] is the number of distinct stored keys, and
    [is_empty()] holds exactly when no key is stored. *)
Theorem len_counts_keys s :
  reachable s ->
  len s = length (keys (table s)) /\ NoDup (keys (table s)) /\
  (is_empty s = true <-> keys (table s) = []).
Proof.
  intros Hr. destruct (reachable_wf s Hr) as [Hit _ [Hnd _]].
  assert (Hl : len s = length (keys (table s))).
  { unfold len, keys. by rewrite length_map, length_pairs. }
  split_and!; [done|done|].
  unfold is_empty. rewrite Nat.eqb_eq, <- length_zero_iff_nil, <- Hl. done.
Qed.

(** Inserting a fresh key and removing it again gives back [v] and the
    original contents and length. *)
Theorem insert_remove_fresh s k v s1 r :
  reachable s -> k ∉ keys (table s) -> insert s k v = Ret (s1, r) ->
  r = None /\ exists s2, remove s1 k = Ret (s2, Some v) /\
    pairs (table s2) ≡ₚ pairs (table s) /\ len s2 = len s.
Proof.
  intros Hr Hk Hins. pose proof (reachable_wf s Hr) as Hwf.
  destruct (insert_wf _ _ _ _ _ Hwf Hins) as (Hwf1 & _ & _ & Hres).
  destruct r as [old|].
  - exfalso. destruct Hres as (_ & rest & Hp1 & _). apply Hk, keys_In.
    exists old. apply (perm_in_iff _ _ _ Hp1). by left.
  - destruct Hres as (Hit1 & _ & Hp1). split; [done|].
    destruct (remove_present s1 k v Hwf1) as [s2 Hrem].
    { apply (perm_in_iff _ _ _ Hp1). by left. }
    destruct (remove_wf _ _ _ _ Hwf1 Hrem) as (_ & _ & Hit2 & Hp2).
    exists s2. split; [done|]. unfold len. split; [|lia].
    apply (Permutation_cons_inv (a := (k, v))). by rewrite <- Hp1, Hp2.
Qed.

(** A lookup may rehash the table, but repeating it gives the same answer. *)
Theorem get_repeat s k s1 r :
  reachable s -> get s k = Ret (s1, r) -> exists s2, get s1 k = Ret (s2, r).
Proof.
  intros Hr Hg. pose proof (reachable_wf s Hr) as Hwf.
  destruct (get_wf _ _ _ _ Hwf Hg) as (Hwf1 & _ & _ & Hp & Hres).
  destruct r as [w|].
  - apply get_present; [done|]. by apply (perm_in_iff _ _ _ Hp).
  - apply get_inv in Hg as [(H0 & -> & _)|(Hpos & p & _ & Hpos1 & Hprobe & Hrp)].
    + exists s. unfold get. by rewrite H0.
    + destruct p as [i k' w|i]; [done|].
      destruct (probe_result _ _ _ (wf_table _ Hwf1) Hpos1 Hprobe) as (He & Hk & _).
      pose proof (lookup_empty_counts _ _ He).
      destruct (get_absent s1 k Hwf1) as (s2 & Hg2 & _); [|done|by exists s2].
      rewrite (wf_items _ Hwf1). lia.
Qed.

End HashMapModel.

Arguments Entry : clear implicits.
Arguments HashMap : clear implicits.
Arguments Probe : clear implicits.
Arguments Op : clear implicits.


(** * Concrete runs, [K = V = nat]

    Runs with an arbitrary hash function only depend on [hash k mod n] for
    the few capacities [n] they go through; the tactics below evaluate a run
    once those residues are fixed by hypotheses. *)

Ltac is_lit n := lazymatch n with O => idtac | S ?m => is_lit m end.

Ltac lit_mod := repeat match goal with
  | |- context [?a mod ?b] => is_lit a; is_lit b;
      let c := eval compute in (a mod b) in change (a mod b) with c
  end.

Ltac hyp_mod := repeat match goal with
  | H : ?x mod ?y = _ |- context [?x mod ?y] => rewrite H
  end.

Ltac crunch := repeat (progress (cbn -[Nat.modulo]; unfold prehash;
  rewrite ?Nat.mod_1_r; hyp_mod; lit_mod; rewrite ?decide_True, ?decide_False by lia)).

Ltac residue h k n :=
  let Hb := fresh "Hb" in let E := fresh "E" in
  destruct (Nat.mod_bound_pos (h k) n) as [_ Hb]; [lia|lia|];
  destruct (h k mod n) as [|[|]] eqn:E; [| |lia].

(** Reachable states used below. *)

Lemma tomb_state_reachable :
  run idhash new [OpInsert 1 10; OpRemove 1] =
    Ret {| table := [Del]; items := 0; tombs := 1 |}.
Proof. reflexivity. Qed.

Lemma update_state_reachable :
  run idhash new [OpInsert 1 10; OpInsert 2 20; OpRemove 1] =
    Ret {| table := [Pair 2 20; Del]; items := 1; tombs := 1 |}.
Proof. reflexivity. Qed.

(** The state of the [contaminate] test of lib.rs, before its last [get]. *)
Lemma contaminate_state_reachable :
  run idhash new [OpInsert 12 21; OpInsert 11 11; OpInsert 99 99; OpRemove 12; OpInsert 10 10] =
    Ret {| table := [Del; Pair 99 99; Pair 10 10; Pair 11 11]; items := 3; tombs := 1 |}.
Proof. reflexivity. Qed.

(** C1: the probe fence is reached.  For every hash function, [insert 1]
    on [new] fills the capacity-1 table and the following [get 2] (after a
    declutter, since 1 > 3 * 1 / 4 = 0) walks the full table until
    [cnt > capacity]: "Infinite loop!".  With the identity hash, tombstones
    do the same to [insert]: after inserting 1, 2, 3 and removing 1 and 2
    the capacity-4 table keeps two tombstones (insert never declutters), 4
    takes the last [Empty] slot and [insert 5] finds no [Empty] slot. *)
Theorem probe_fence_reached (hash : nat -> nat) :
  run hash new [OpInsert 1 10; OpGet 2] = Fail InfiniteLoop /\
  run idhash new
    [OpInsert 1 10; OpInsert 2 20; OpInsert 3 30; OpRemove 1; OpRemove 2;
     OpInsert 4 40; OpInsert 5 50] = Fail InfiniteLoop.
Proof. split; [crunch; reflexivity|vm_compute; reflexivity]. Qed.

(** C3: after the declutter a [get] on an absent key need not terminate.
    For every hash function, inserting 1 and 2 into [new] gives a full
    capacity-2 table ([items = 2], [tombs = 0]).  The code's threshold
    [items + tombs > 3 * 2 / 4 = 1] makes [get] declutter (the spec's
    [ceil(3/4 * 2) = 2] would not), the rehash cannot free a slot, and the
    probe for the absent key 3 ends in the "Infinite loop!" panic. *)
Theorem declutter_then_panic (hash : nat -> nat) :
  exists s, run hash new [OpInsert 1 10; OpInsert 2 20] = Ret s /\
    length (table s) = 2 /\ items s = 2 /\ tombs s = 0 /\
    contaminated s = true /\ contaminated_spec s = false /\
    (3 ∉ keys (table s)) /\ get hash s 3 = Fail InfiniteLoop.
Proof.
  residue hash 1 2; residue hash 2 2; residue hash 3 2.
  all: eexists; split; [crunch; reflexivity|].
  all: split_and!; try (crunch; reflexivity).
  all: intros Hin; apply list_elem_of_In in Hin; cbn in Hin; lia.
Qed.

(** C2 as worded, with the threshold [ceil(3/4 * capacity)], is refuted:
    in the reachable state [[Del]] ([items = 0], [tombs = 1]) the spec's
    test [0 >= ceil(3/4)] = [0 >= 1] is false, yet [insert 2] grows the
    table to capacity 2, because the code tests [0 >= 3 * 1 / 4 = 0]. *)
Lemma insert_growth_ceil_counterexample :
  ~ (forall (hash : nat -> nat) (s : HashMap nat nat) (k v : nat) s' r,
       insert hash s k v = Ret (s', r) ->
       length (table s') =
         (if needs_growth_spec s then Nat.max 1 (2 * length (table s))
          else length (table s))).
Proof.
  intros H.
  specialize (H idhash {| table := [Del]; items := 0; tombs := 1 |} 2 20
    {| table := [Pair 2 20; Empty]; items := 1; tombs := 0 |} None eq_refl).
  vm_compute in H. discriminate.
Qed.

(** Instance of [insert_growth] on that state. *)
Lemma insert_growth_witness :
  let s := {| table := [Del]; items := 0; tombs := 1 |} : HashMap nat nat in
  let s' := {| table := [Pair 2 20; Empty]; items := 1; tombs := 0 |} : HashMap nat nat in
  insert idhash s 2 20 = Ret (s', None) /\
  (needs_growth s = true <-> length (table s) = 0 \/ 3 * length (table s) / 4 <= items s) /\
  length (table s') =
    (if needs_growth s then Nat.max 1 (2 * length (table s)) else length (table s)) /\
  tombs s' = (if needs_growth s then 0 else tombs s).
Proof.
  intros s s'. assert (H : insert idhash s 2 20 = Ret (s', None)) by reflexivity.
  split; [exact H|]. exact (insert_growth idhash s 2 20 s' None H).
Defined.

(** C4 as worded is refuted: in the [contaminate] state
    ([items + tombs = 4 > 3]) [remove 12] finds nothing and returns [None],
    but it has decluttered first: the slots are moved and [tombs] goes from
    1 to 0. *)
Lemma remove_miss_unchanged_counterexample :
  ~ (forall (hash : nat -> nat) (s : HashMap nat nat) k s',
       remove hash s k = Ret (s', None) -> s' = s).
Proof.
  intros H.
  specialize (H idhash
    {| table := [Del; Pair 99 99; Pair 10 10; Pair 11 11]; items := 3; tombs := 1 |} 12
    {| table := [Pair 11 11; Empty; Pair 10 10; Pair 99 99]; items := 3; tombs := 0 |} eq_refl).
  discriminate.
Qed.

(** Instance of [remove_miss] on that state. *)
Lemma remove_miss_witness :
  let s := {| table := [Del; Pair 99 99; Pair 10 10; Pair 11 11]; items := 3; tombs := 1 |}
    : HashMap nat nat in
  let s' := {| table := [Pair 11 11; Empty; Pair 10 10; Pair 99 99]; items := 3; tombs := 0 |}
    : HashMap nat nat in
  remove idhash s 12 = Ret (s', None) /\
  length (table s') = length (table s) /\ items s' = items s /\ tombs s' = 0 /\
  count_del (table s') = 0 /\ pairs (table s') ≡ₚ pairs (table s).
Proof.
  intros s s'. assert (H : remove idhash s 12 = Ret (s', None)) by reflexivity.
  pose proof (remove_miss idhash s 12 s' H) as Hm.
  assert (Hc : (0 <? length (table s)) && contaminated s = true) by reflexivity.
  rewrite Hc in Hm. split; [exact H|exact Hm].
Defined.

(** Instance of [round_trip] in the [contaminate] state: [insert 11 5]
    followed by [get 99] and [insert 7 7] still finds [5] under 11;
    [remove 99] followed by [get 10] leaves 99 absent for [get],
    [contains_key] and [remove]. *)
Lemma round_trip_witness :
  let s := {| table := [Del; Pair 99 99; Pair 10 10; Pair 11 11]; items := 3; tombs := 1 |}
    : HashMap nat nat in
  let s2 := {| table := [Empty; Empty; Pair 10 10; Pair 99 99; Pair 11 5; Empty; Empty; Pair 7 7];
               items := 4; tombs := 0 |} : HashMap nat nat in
  let s2' := {| table := [Pair 11 11; Empty; Pair 10 10; Del]; items := 2; tombs := 1 |}
    : HashMap nat nat in
  reachable idhash s /\
  (exists s3, get idhash s2 11 = Ret (s3, Some 5)) /\
  (exists s3, get idhash s2' 99 = Ret (s3, None)) /\
  (exists s3, contains_key idhash s2' 99 = Ret (s3, false)) /\
  (exists s3, remove idhash s2' 99 = Ret (s3, None)).
Proof.
  intros s s2 s2'.
  assert (Hr : reachable idhash s).
  { apply (run_reachable idhash new
      [OpInsert 12 21; OpInsert 11 11; OpInsert 99 99; OpRemove 12; OpInsert 10 10]);
      [constructor|reflexivity]. }
  destruct (round_trip idhash s 11 Hr) as [Ha _].
  destruct (round_trip idhash s 99 Hr) as [_ Hb].
  split; [exact Hr|]. split.
  - apply (Ha 5 {| table := [Empty; Empty; Pair 10 10; Pair 99 99; Pair 11 5; Empty; Empty; Empty];
                    items := 3; tombs := 0 |} (Some 11) [OpGet 99; OpInsert 7 7] s2);
      [reflexivity| |reflexivity].
    repeat constructor; cbn; intros ?; lia.
  - apply (Hb 99 {| table := [Pair 11 11; Empty; Pair 10 10; Del]; items := 2; tombs := 1 |}
             [OpGet 10] s2'); [reflexivity| |reflexivity].
    repeat constructor; cbn; intros ?; lia.
Defined.

(** C6 as worded is refuted: in the reachable state [[Pair 2 20; Del]]
    ([items = 1], [tombs = 1], capacity 2) the growth check
    [1 >= 3 * 2 / 4 = 1] fires before the update, so [insert 2 30] returns
    [Some 20] and keeps [len() = 1], but [tombs] drops from 1 to 0. *)
Lemma insert_update_tombs_counterexample :
  ~ (forall (hash : nat -> nat) (s : HashMap nat nat) i k old v s' r,
       table s !! i = Some (Pair k old) -> insert hash s k v = Ret (s', r) ->
       r = Some old /\ len s' = len s /\ tombs s' = tombs s).
Proof.
  intros H.
  destruct (H idhash {| table := [Pair 2 20; Del]; items := 1; tombs := 1 |} 0 2 20 30
    {| table := [Empty; Empty; Pair 2 30; Empty]; items := 1; tombs := 0 |} (Some 20)
    eq_refl eq_refl) as (_ & _ & Htb).
  discriminate.
Qed.

(** Instance of [insert_update] on that state. *)
Lemma insert_update_witness :
  let s := {| table := [Pair 2 20; Del]; items := 1; tombs := 1 |} : HashMap nat nat in
  reachable idhash s /\ table s !! 0 = Some (Pair 2 20) /\
  exists s', insert idhash s 2 30 = Ret (s', Some 20) /\ len s' = len s /\
    tombs s' = (if needs_growth s then 0 else tombs s).
Proof.
  intros s.
  assert (Hr : reachable idhash s).
  { apply (run_reachable idhash new [OpInsert 1 10; OpInsert 2 20; OpRemove 1]);
      [constructor|reflexivity]. }
  assert (Hi : table s !! 0 = Some (Pair 2 20)) by reflexivity.
  split; [exact Hr|]. split; [exact Hi|].
  exact (insert_update idhash s 0 2 20 30 Hr Hi).
Defined.

(** Instance of [reachable_bounds] in the [contaminate] state. *)
Lemma reachable_bounds_witness :
  let s := {| table := [Del; Pair 99 99; Pair 10 10; Pair 11 11]; items := 3; tombs := 1 |}
    : HashMap nat nat in
  reachable idhash s /\
  items s <= length (table s) /\ tombs s <= length (table s) - items s /\
  (forall i j k v w, table s !! i = Some (Pair k v) -> table s !! j = Some (Pair k w) -> i = j).
Proof.
  intros s.
  assert (Hr : reachable idhash s).
  { apply (run_reachable idhash new
      [OpInsert 12 21; OpInsert 11 11; OpInsert 99 99; OpRemove 12; OpInsert 10 10]);
      [constructor|reflexivity]. }
  split; [exact Hr|]. exact (reachable_bounds idhash s Hr).
Defined.

(** Instance of [reachable_counters] in the [contaminate] state. *)
Lemma reachable_counters_witness :
  let s := {| table := [Del; Pair 99 99; Pair 10 10; Pair 11 11]; items := 3; tombs := 1 |}
    : HashMap nat nat in
  reachable idhash s /\ items s = count_pairs (table s) /\ tombs s = count_del (table s).
Proof.
  intros s.
  assert (Hr : reachable idhash s).
  { apply (run_reachable idhash new
      [OpInsert 12 21; OpInsert 11 11; OpInsert 99 99; OpRemove 12; OpInsert 10 10]);
      [constructor|reflexivity]. }
  split; [exact Hr|]. exact (reachable_counters idhash s Hr).
Defined.

(** ** Instances of the further properties *)

Lemma contaminate_state_reach :
  reachable idhash
    {| table := [Del; Pair 99 99; Pair 10 10; Pair 11 11]; items := 3; tombs := 1 |}.
Proof.
  apply (run_reachable idhash new
    [OpInsert 12 21; OpInsert 11 11; OpInsert 99 99; OpRemove 12; OpInsert 10 10]);
    [constructor|reflexivity].
Qed.

Lemma insert_contents_witness :
  let s := {| table := [Del; Pair 99 99; Pair 10 10; Pair 11 11]; items := 3; tombs := 1 |}
    : HashMap nat nat in
  let s' := {| table := [Empty; Empty; Pair 10 10; Pair 99 99; Pair 11 5; Empty; Empty; Empty];
               items := 3; tombs := 0 |} : HashMap nat nat in
  reachable idhash s /\ insert idhash s 11 5 = Ret (s', Some 11) /\
  In (11, 5) (pairs (table s')) /\
  (forall w, In (11, w) (pairs (table s')) -> w = 5) /\
  (forall k' w, k' <> 11 -> In (k', w) (pairs (table s')) <-> In (k', w) (pairs (table s))) /\
  In (11, 11) (pairs (table s)) /\ len s' = len s.
Proof.
  intros s s'. assert (Hins : insert idhash s 11 5 = Ret (s', Some 11)) by reflexivity.
  split; [exact contaminate_state_reach|]. split; [exact Hins|].
  exact (insert_contents idhash s 11 5 s' (Some 11) contaminate_state_reach Hins).
Defined.

Lemma get_contents_witness :
  let s := {| table := [Del; Pair 99 99; Pair 10 10; Pair 11 11]; items := 3; tombs := 1 |}
    : HashMap nat nat in
  let s' := {| table := [Pair 11 11; Empty; Pair 10 10; Pair 99 99]; items := 3; tombs := 0 |}
    : HashMap nat nat in
  reachable idhash s /\ get idhash s 12 = Ret (s', None) /\
  pairs (table s') ≡ₚ pairs (table s) /\ len s' = len s /\
  length (table s') = length (table s) /\ (12 ∉ keys (table s)).
Proof.
  intros s s'. assert (Hg : get idhash s 12 = Ret (s', None)) by reflexivity.
  split; [exact contaminate_state_reach|]. split; [exact Hg|].
  exact (get_contents idhash s 12 s' None contaminate_state_reach Hg).
Defined.

Lemma contains_key_correct_witness :
  let s := {| table := [Del; Pair 99 99; Pair 10 10; Pair 11 11]; items := 3; tombs := 1 |}
    : HashMap nat nat in
  let s' := {| table := [Pair 11 11; Empty; Pair 10 10; Pair 99 99]; items := 3; tombs := 0 |}
    : HashMap nat nat in
  reachable idhash s /\ contains_key idhash s 99 = Ret (s', true) /\
  (true = true <-> 99 ∈ keys (table s)) /\
  pairs (table s') ≡ₚ pairs (table s) /\ len s' = len s.
Proof.
  intros s s'. assert (Hc : contains_key idhash s 99 = Ret (s', true)) by reflexivity.
  split; [exact contaminate_state_reach|]. split; [exact Hc|].
  exact (contains_key_correct idhash s 99 s' true contaminate_state_reach Hc).
Defined.

Lemma remove_contents_witness :
  let s := {| table := [Del; Pair 99 99; Pair 10 10; Pair 11 11]; items := 3; tombs := 1 |}
    : HashMap nat nat in
  let s' := {| table := [Pair 11 11; Empty; Pair 10 10; Del]; items := 2; tombs := 1 |}
    : HashMap nat nat in
  reachable idhash s /\ remove idhash s 99 = Ret (s', Some 99) /\
  length (table s') = length (table s) /\ (99 ∉ keys (table s')) /\
  (forall k' w, k' <> 99 -> In (k', w) (pairs (table s')) <-> In (k', w) (pairs (table s))) /\
  In (99, 99) (pairs (table s)) /\ len s' = len s - 1.
Proof.
  intros s s'. assert (Hrem : remove idhash s 99 = Ret (s', Some 99)) by reflexivity.
  split; [exact contaminate_state_reach|]. split; [exact Hrem|].
  exact (remove_contents idhash s 99 s' (Some 99) contaminate_state_reach Hrem).
Defined.

Lemma present_key_total_witness :
  let s := {| table := [Del; Pair 99 99; Pair 10 10; Pair 11 11]; items := 3; tombs := 1 |}
    : HashMap nat nat in
  reachable idhash s /\ In (10, 10) (pairs (table s)) /\
  (exists s', get idhash s 10 = Ret (s', Some 10)) /\
  (exists s', contains_key idhash s 10 = Ret (s', true)) /\
  (exists s', remove idhash s 10 = Ret (s', Some 10)) /\
  (forall v', exists s', insert idhash s 10 v' = Ret (s', Some 10)).
Proof.
  intros s. assert (Hin : In (10, 10) (pairs (table s))) by (simpl; tauto).
  split; [exact contaminate_state_reach|]. split; [exact Hin|].
  exact (present_key_total idhash s 10 10 contaminate_state_reach Hin).
Defined.

Lemma reachable_load_factor_witness :
  let s := {| table := [Del; Pair 99 99; Pair 10 10; Pair 11 11]; items := 3; tombs := 1 |}
    : HashMap nat nat in
  reachable idhash s /\ 4 <= length (table s) /\ items s <= 3 * length (table s) / 4.
Proof.
  intros s. assert (H4 : 4 <= length (table s)) by (simpl; lia).
  split; [exact contaminate_state_reach|]. split; [exact H4|].
  exact (reachable_load_factor idhash s contaminate_state_reach H4).
Defined.

Lemma lookups_total_witness :
  let s := {| table := [Del; Pair 99 99; Pair 10 10; Pair 11 11]; items := 3; tombs := 1 |}
    : HashMap nat nat in
  reachable idhash s /\ (length (table s) = 0 \/ 4 <= length (table s)) /\
  (exists s' r, get idhash s 12 = Ret (s', r)) /\
  (exists s' b, contains_key idhash s 12 = Ret (s', b)) /\
  (exists s' r, remove idhash s 12 = Ret (s', r)).
Proof.
  intros s. assert (Hc : length (table s) = 0 \/ 4 <= length (table s)) by (simpl; lia).
  split; [exact contaminate_state_reach|]. split; [exact Hc|].
  exact (lookups_total idhash s 12 contaminate_state_reach Hc).
Defined.

Lemma reachable_capacity_pow2_witness :
  let s := {| table := [Del; Pair 99 99; Pair 10 10; Pair 11 11]; items := 3; tombs := 1 |}
    : HashMap nat nat in
  reachable idhash s /\ (length (table s) = 0 \/ exists m, length (table s) = 2 ^ m).
Proof.
  intros s. split; [exact contaminate_state_reach|].
  exact (reachable_capacity_pow2 idhash s contaminate_state_reach).
Defined.

Lemma insert_total_no_tombs_witness :
  let s := {| table := [Pair 2 20; Pair 1 10]; items := 2; tombs := 0 |} : HashMap nat nat in
  reachable idhash s /\ tombs s = 0 /\ exists s' r, insert idhash s 3 30 = Ret (s', r).
Proof.
  intros s.
  assert (Hr : reachable idhash s).
  { apply (run_reachable idhash new [OpInsert 1 10; OpInsert 2 20]); [constructor|reflexivity]. }
  assert (Htb : tombs s = 0) by reflexivity.
  split; [exact Hr|]. split; [exact Htb|].
  exact (insert_total_no_tombs idhash s 3 30 Hr Htb).
Defined.

Lemma len_counts_keys_witness :
  let s := {| table := [Del; Pair 99 99; Pair 10 10; Pair 11 11]; items := 3; tombs := 1 |}
    : HashMap nat nat in
  reachable idhash s /\
  len s = length (keys (table s)) /\ NoDup (keys (table s)) /\
  (is_empty s = true <-> keys (table s) = []).
Proof.
  intros s. split; [exact contaminate_state_reach|].
  exact (len_counts_keys idhash s contaminate_state_reach).
Defined.

Lemma insert_remove_fresh_witness :
  let s := {| table := [Del; Pair 99 99; Pair 10 10; Pair 11 11]; items := 3; tombs := 1 |}
    : HashMap nat nat in
  let s1 := {| table := [Empty; Empty; Pair 10 10; Pair 99 99; Pair 11 11; Empty; Empty; Pair 7 70];
               items := 4; tombs := 0 |} : HashMap nat nat in
  reachable idhash s /\ (7 ∉ keys (table s)) /\ insert idhash s 7 70 = Ret (s1, None) /\
  None = @None nat /\ exists s2, remove idhash s1 7 = Ret (s2, Some 70) /\
    pairs (table s2) ≡ₚ pairs (table s) /\ len s2 = len s.
Proof.
  intros s s1.
  assert (Hk : 7 ∉ keys (table s)).
  { intros Hin. apply list_elem_of_In in Hin. cbn in Hin. lia. }
  assert (Hins : insert idhash s 7 70 = Ret (s1, None)) by reflexivity.
  split; [exact contaminate_state_reach|]. split; [exact Hk|]. split; [exact Hins|].
  exact (insert_remove_fresh idhash s 7 70 s1 None contaminate_state_reach Hk Hins).
Defined.

Lemma get_repeat_witness :
  let s := {| table := [Del; Pair 99 99; Pair 10 10; Pair 11 11]; items := 3; tombs := 1 |}
    : HashMap nat nat in
  let s1 := {| table := [Pair 11 11; Empty; Pair 10 10; Pair 99 99]; items := 3; tombs := 0 |}
    : HashMap nat nat in
  reachable idhash s /\ get idhash s 12 = Ret (s1, None) /\
  exists s2, get idhash s1 12 = Ret (s2, None).
Proof.
  intros s s1. assert (Hg : get idhash s 12 = Ret (s1, None)) by reflexivity.
  split; [exact contaminate_state_reach|]. split; [exact Hg|].
  exact (get_repeat idhash s 12 s1 None contaminate_state_reach Hg).
Defined.
